(** * NOAA space weather MCP server: the cache manager and the NOAA client

    A shallow embedding of [src/cache/manager.ts] (class [CacheManager],
    [DEFAULT_CACHE_CONFIG], [DATA_TTL]) and of the caching part of
    [src/noaa/client.ts] (class [NoaaClient]: [fetchEndpoint] and
    [getTtlForEndpoint]), followed by the properties of the cache store and
    of the fetch orchestrator. Further on: [queryData], [getXrayFlux],
    [getKpIndex], [getCacheStats] and [clearCache] of the client, the
    functions of [src/utils/query.ts], and the assessment of the tool
    [analyze_propagation].

    Conventions of the embedding.
    - In [CacheManager] and [NoaaClient] a JavaScript [number] is an exact
      rational ([Q]): [Date.now()] readings, TTLs in seconds and the
      products [ttl * 1000] are computed without rounding, which is what
      the code computes when the clock readings and the TTLs are integers
      of the usual size, as those of [DATA_TTL] are; [NaN] is not
      represented and the only infinity, the initial [oldestTime] of
      [evictOldest], has a constructor of its own.
    - [Binary64] is the cache manager once more, over the floats of the
      machine: its entries hold the time stamps the code stores, rounding,
      [NaN] and infinities included.
    - [Date.now()] is an input: the cache operations that read the clock
      take the reading as their first argument.
    - The [Map] held by the cache manager is an association list in
      insertion order, as the iteration of [Map.prototype.entries] sees it.
    - [fetchEndpoint] runs in a state-and-exception monad over the cache and
      the log of network requests; the reply of the network and the clock
      readings of one call are its environment. One call runs from its
      beginning to its end: no other call touches the cache while it waits
      for the network. *)

From Stdlib Require Import List String Ascii Bool ZArith NArith QArith Lia Lqa.
From Stdlib Require Import DecimalString Sorted Qround Permutation Floats.
Import ListNotations.

Local Open Scope Q_scope.

(** ** Numbers *)

Definition number : Type := Q.

(** [x < y] on numbers, as a boolean. *)
Definition Qltb (x y : number) : bool :=
  (Qnum x * QDen y <? Qnum y * QDen x)%Z.

(** The values [oldestTime] ranges over in [evictOldest]: a time stamp or
    [Number.POSITIVE_INFINITY]. *)
Inductive Bound : Type :=
| Finite (t : number)
| POSITIVE_INFINITY.

Definition lt_bound (x : number) (b : Bound) : bool :=
  match b with
  | Finite t => Qltb x t
  | POSITIVE_INFINITY => true
  end.

(** ** The insertion-ordered [Map<string, V>] *)

Section JsMap.
Context {V : Type}.

Definition JsMap : Type := list (string * V).

(** [Map.prototype.get]: [None] stands for [undefined]. *)
Fixpoint map_get (k : string) (m : JsMap) : option V :=
  match m with
  | [] => None
  | (k', v) :: rest => if String.eqb k' k then Some v else map_get k rest
  end.

Definition map_has (k : string) (m : JsMap) : bool :=
  match map_get k m with Some _ => true | None => false end.

(** [Map.prototype.set]: a key that is present keeps its place in the
    iteration order, a new key goes to the end. *)
Fixpoint map_set (k : string) (v : V) (m : JsMap) : JsMap :=
  match m with
  | [] => [(k, v)]
  | (k', v') :: rest =>
      if String.eqb k' k then (k, v) :: rest
      else (k', v') :: map_set k v rest
  end.

(** [Map.prototype.delete]: the map without the key, and whether the key
    was there. *)
Definition map_remove (k : string) (m : JsMap) : JsMap :=
  filter (fun kv => negb (String.eqb (fst kv) k)) m.

Definition map_delete (k : string) (m : JsMap) : bool * JsMap :=
  (map_has k m, map_remove k m).

Definition map_clear (m : JsMap) : JsMap := [].

Definition map_size (m : JsMap) : nat := List.length m.

Definition map_keys (m : JsMap) : list string := map fst m.

(** The keys of a [Map] are pairwise distinct. *)
Definition map_wf (m : JsMap) : Prop := NoDup (map_keys m).
End JsMap.

Arguments JsMap : clear implicits.

(** ** [src/cache/manager.ts] *)

Module CacheManager.

(** [CacheConfig] of [src/noaa/types.ts]. *)
Record CacheConfig : Type := mkConfig {
  ttlSeconds : number;
  maxEntries : Z
}.

(** [CacheEntry<T>] of [src/noaa/types.ts]. *)
Record CacheEntry (T : Type) : Type := mkEntry {
  data : T;
  fetchedAt : number;
  expiresAt : number
}.
Arguments mkEntry {T}.
Arguments data {T}.
Arguments fetchedAt {T}.
Arguments expiresAt {T}.

(** The two private fields of the class. *)
Record t (T : Type) : Type := mkCache {
  memoryCache : JsMap (CacheEntry T);
  config : CacheConfig
}.
Arguments mkCache {T}.
Arguments memoryCache {T}.
Arguments config {T}.

Record Stats : Type := mkStats {
  size : nat;
  stats_maxEntries : Z;
  stats_ttlSeconds : number
}.

Section Methods.
Context {T : Type}.

Definition new (cfg : CacheConfig) : t T :=
  mkCache [] cfg.

Definition with_map (c : t T) (m : JsMap (CacheEntry T)) : t T :=
  mkCache m (config c).

(** [get<T>(key)]; [now] is the reading of [Date.now()] on line 23. *)
Definition get (now : number) (key : string) (c : t T)
  : option (CacheEntry T) * t T :=
  match map_get key (memoryCache c) with
  | None => (None, c)
  | Some entry =>
      if Qltb (expiresAt entry) now
      then (None, with_map c (snd (map_delete key (memoryCache c))))
      else (Some entry, c)
  end.

(** One iteration of the loop of [evictOldest] on the pair
    [(oldestKey, oldestTime)]. *)
Definition scan_step (acc : option string * Bound)
                     (kv : string * CacheEntry T) : option string * Bound :=
  if lt_bound (fetchedAt (snd kv)) (snd acc)
  then (Some (fst kv), Finite (fetchedAt (snd kv)))
  else acc.

Definition scan (m : JsMap (CacheEntry T)) : option string * Bound :=
  fold_left scan_step m (None, POSITIVE_INFINITY).

(** The test [if (oldestKey)]: [null] and the empty string are falsy. *)
Definition truthy (k : option string) : bool :=
  match k with
  | None => false
  | Some s => negb (String.eqb s EmptyString)
  end.

Definition evictOldest (c : t T) : t T :=
  let oldestKey := fst (scan (memoryCache c)) in
  if truthy oldestKey then
    match oldestKey with
    | Some k => with_map c (snd (map_delete k (memoryCache c)))
    | None => c
    end
  else c.

(** [set<T>(key, data, ttlOverride?)]; [now] is the reading of
    [Date.now()] on line 33. *)
Definition set (now : number) (key : string) (d : T)
               (ttlOverride : option number) (c : t T) : t T :=
  let ttl := match ttlOverride with
             | Some x => x
             | None => ttlSeconds (config c)
             end in
  let entry := mkEntry d now (now + ttl * 1000) in
  let c1 := if (maxEntries (config c) <=? Z.of_nat (map_size (memoryCache c)))%Z
            then evictOldest c
            else c in
  with_map c1 (map_set key entry (memoryCache c1)).

Definition invalidate (key : string) (c : t T) : bool * t T :=
  let r := map_delete key (memoryCache c) in
  (fst r, with_map c (snd r)).

Definition invalidateAll (c : t T) : t T :=
  with_map c (map_clear (memoryCache c)).

Definition getStats (c : t T) : Stats :=
  mkStats (map_size (memoryCache c))
          (maxEntries (config c))
          (ttlSeconds (config c)).

Definition getStale (key : string) (c : t T) : option (CacheEntry T) :=
  map_get key (memoryCache c).
End Methods.

Definition DEFAULT_CACHE_CONFIG : CacheConfig := mkConfig 300 100.

(** [DATA_TTL], in seconds. *)
Module DATA_TTL.
Definition XRAY_FLUX : number := 60.
Definition KP_INDEX : number := 180.
Definition SOLAR_WIND : number := 60.
Definition FORECAST : number := 3600.
Definition HISTORICAL : number := 86400.
Definition ALERTS : number := 60.
End DATA_TTL.

End CacheManager.

(** ** [src/cache/manager.ts] over IEEE 754 binary64

    The same class with the numbers of the machine: a [number] is a
    [float], and [+], [*] and [<] are the operations of binary64, rounding
    to nearest with ties to even, with [NaN] and the two infinities. The
    time stamps an entry stores are here the ones the code stores, bit for
    bit. [maxEntries] is a count, as above. *)

Module Binary64.

Record CacheConfig : Type := mkConfig {
  ttlSeconds : float;
  maxEntries : Z
}.

Record CacheEntry (T : Type) : Type := mkEntry {
  data : T;
  fetchedAt : float;
  expiresAt : float
}.
Arguments mkEntry {T}.
Arguments data {T}.
Arguments fetchedAt {T}.
Arguments expiresAt {T}.

Record t (T : Type) : Type := mkCache {
  memoryCache : JsMap (CacheEntry T);
  config : CacheConfig
}.
Arguments mkCache {T}.
Arguments memoryCache {T}.
Arguments config {T}.

Section Methods.
Context {T : Type}.

Definition new (cfg : CacheConfig) : t T :=
  mkCache [] cfg.

Definition with_map (c : t T) (m : JsMap (CacheEntry T)) : t T :=
  mkCache m (config c).

(** [get<T>(key)]; [now] is the reading of [Date.now()] on line 23. *)
Definition get (now : float) (key : string) (c : t T)
  : option (CacheEntry T) * t T :=
  match map_get key (memoryCache c) with
  | None => (None, c)
  | Some entry =>
      if (expiresAt entry <? now)%float
      then (None, with_map c (snd (map_delete key (memoryCache c))))
      else (Some entry, c)
  end.

(** One iteration of the loop of [evictOldest] on the pair
    [(oldestKey, oldestTime)]. *)
Definition scan_step (acc : option string * float)
                     (kv : string * CacheEntry T) : option string * float :=
  if (fetchedAt (snd kv) <? snd acc)%float
  then (Some (fst kv), fetchedAt (snd kv))
  else acc.

Definition scan (m : JsMap (CacheEntry T)) : option string * float :=
  fold_left scan_step m (None, infinity).

(** The test [if (oldestKey)]: [null] and the empty string are falsy. *)
Definition truthy (k : option string) : bool :=
  match k with
  | None => false
  | Some s => negb (String.eqb s EmptyString)
  end.

Definition evictOldest (c : t T) : t T :=
  let oldestKey := fst (scan (memoryCache c)) in
  if truthy oldestKey then
    match oldestKey with
    | Some k => with_map c (snd (map_delete k (memoryCache c)))
    | None => c
    end
  else c.

(** [set<T>(key, data, ttlOverride?)]; [now] is the reading of
    [Date.now()] on line 33. *)
Definition set (now : float) (key : string) (d : T)
               (ttlOverride : option float) (c : t T) : t T :=
  let ttl := match ttlOverride with
             | Some x => x
             | None => ttlSeconds (config c)
             end in
  let entry := mkEntry d now (now + ttl * 1000)%float in
  let c1 := if (maxEntries (config c) <=? Z.of_nat (map_size (memoryCache c)))%Z
            then evictOldest c
            else c in
  with_map c1 (map_set key entry (memoryCache c1)).

Definition getStale (key : string) (c : t T) : option (CacheEntry T) :=
  map_get key (memoryCache c).
End Methods.

End Binary64.

(** A store of one slot with a TTL of one minute, and a TTL of
    [1 - 2^-24] seconds: its product with 1000 is not a binary64 number. *)
Definition one_slot64 : Binary64.CacheConfig := Binary64.mkConfig 60%float 1.

Definition short_second : float := 0x1.fffffep-1%float.

(** ** [src/noaa/client.ts] *)

Module NoaaClient.
Import CacheManager.

(** [EndpointKey]: the keys of [NOAA_ENDPOINTS] in [src/noaa/types.ts]. *)
Inductive EndpointKey : Type :=
| XRAY_FLUX
| KP_INDEX
| SOLAR_WIND_REALTIME
| SOLAR_WIND_MAG
| PREDICTED_SFI
| FORECAST_27DAY
| SUNSPOT_NUMBER
| ALERTS
| PROTON_FLUX
| DST_INDEX
| AURORA_FORECAST.

(** The key as a string, as the template [`noaa_${endpoint}`] prints it. *)
Definition endpoint_name (endpoint : EndpointKey) : string :=
  match endpoint with
  | XRAY_FLUX => "XRAY_FLUX"
  | KP_INDEX => "KP_INDEX"
  | SOLAR_WIND_REALTIME => "SOLAR_WIND_REALTIME"
  | SOLAR_WIND_MAG => "SOLAR_WIND_MAG"
  | PREDICTED_SFI => "PREDICTED_SFI"
  | FORECAST_27DAY => "FORECAST_27DAY"
  | SUNSPOT_NUMBER => "SUNSPOT_NUMBER"
  | ALERTS => "ALERTS"
  | PROTON_FLUX => "PROTON_FLUX"
  | DST_INDEX => "DST_INDEX"
  | AURORA_FORECAST => "AURORA_FORECAST"
  end%string.

Definition NOAA_ENDPOINTS (endpoint : EndpointKey) : string :=
  match endpoint with
  | XRAY_FLUX =>
      "https://services.swpc.noaa.gov/json/goes/primary/xrays-7-day.json"
  | KP_INDEX =>
      "https://services.swpc.noaa.gov/products/noaa-planetary-k-index.json"
  | SOLAR_WIND_REALTIME =>
      "https://services.swpc.noaa.gov/products/solar-wind/plasma-7-day.json"
  | SOLAR_WIND_MAG =>
      "https://services.swpc.noaa.gov/products/solar-wind/mag-7-day.json"
  | PREDICTED_SFI =>
      "https://services.swpc.noaa.gov/json/f107_cm_flux.json"
  | FORECAST_27DAY =>
      "https://services.swpc.noaa.gov/products/27-day-outlook.json"
  | SUNSPOT_NUMBER =>
      "https://services.swpc.noaa.gov/json/solar-cycle/observed-solar-cycle-indices.json"
  | ALERTS =>
      "https://services.swpc.noaa.gov/products/alerts.json"
  | PROTON_FLUX =>
      "https://services.swpc.noaa.gov/json/goes/primary/integral-protons-7-day.json"
  | DST_INDEX =>
      "https://services.swpc.noaa.gov/products/kyoto-dst.json"
  | AURORA_FORECAST =>
      "https://services.swpc.noaa.gov/products/animations/ovation_north_24h.json"
  end%string.

(** [getTtlForEndpoint]: the [default] branch takes the two endpoints the
    [switch] does not name. *)
Definition getTtlForEndpoint (endpoint : EndpointKey) : number :=
  match endpoint with
  | XRAY_FLUX | PROTON_FLUX => DATA_TTL.XRAY_FLUX
  | KP_INDEX => DATA_TTL.KP_INDEX
  | SOLAR_WIND_REALTIME | SOLAR_WIND_MAG => DATA_TTL.SOLAR_WIND
  | FORECAST_27DAY | PREDICTED_SFI => DATA_TTL.FORECAST
  | SUNSPOT_NUMBER => DATA_TTL.HISTORICAL
  | ALERTS => DATA_TTL.ALERTS
  | _ => DATA_TTL.KP_INDEX
  end.

Inductive Source : Type := source_cache | source_fetch.

(** [ApiResponse<T>] of [src/noaa/types.ts]; an optional field that is
    left out is [None]. *)
Record ApiResponse (T : Type) : Type := mkResponse {
  success : bool;
  resp_data : option T;
  error : option string;
  cachedAt : option number;
  source : Source
}.
Arguments mkResponse {T}.
Arguments success {T}.
Arguments resp_data {T}.
Arguments error {T}.
Arguments cachedAt {T}.
Arguments source {T}.

(** The second parameter of [fetchEndpoint]. *)
Record Options : Type := mkOptions {
  forceRefresh : option bool;
  ttl : option number
}.

(** A thrown value: an [Error] with its message, or anything else. *)
Inductive Thrown : Type :=
| ErrorObject (message : string)
| NotAnError.

(** [error instanceof Error ? error.message : 'Unknown error'] *)
Definition message_of (e : Thrown) : string :=
  match e with
  | ErrorObject m => m
  | NotAnError => "Unknown error"%string
  end.

(** What the network does with one request: [fetch] rejects, or resolves to
    a response with a status line and a body that [json()] decodes or
    rejects. *)
Inductive Body (T : Type) : Type :=
| JsonValue (d : T)
| JsonRejects (e : Thrown).
Arguments JsonValue {T}.
Arguments JsonRejects {T}.

Record Response (T : Type) : Type := mkHttp {
  status : N;
  statusText : string;
  body : Body T
}.
Arguments mkHttp {T}.
Arguments status {T}.
Arguments statusText {T}.
Arguments body {T}.

(** [response.ok]: the status is in the range 200-299. *)
Definition ok {T} (r : Response T) : bool :=
  ((200 <=? status r) && (status r <=? 299))%N.

Inductive Reply (T : Type) : Type :=
| Resolves (r : Response T)
| Rejects (e : Thrown).
Arguments Resolves {T}.
Arguments Rejects {T}.

(** The environment of one call: the network (the reply to the request
    number [n] for a URL) and the readings of [Date.now()] at its three
    places: in [cache.get], in [cache.set], and on line 80. *)
Record Env (T : Type) : Type := mkEnv {
  network : nat -> string -> Reply T;
  now_get : number;
  now_set : number;
  now_return : number
}.
Arguments mkEnv {T}.
Arguments network {T}.
Arguments now_get {T}.
Arguments now_set {T}.
Arguments now_return {T}.

(** The state a call acts on: the cache of the client and the URLs
    requested from the network so far. *)
Record World (T : Type) : Type := mkWorld {
  cache : CacheManager.t T;
  requests : list string
}.
Arguments mkWorld {T}.
Arguments cache {T}.
Arguments requests {T}.

(** *** The monad: state that survives a throw *)

Inductive Outcome (A : Type) : Type :=
| Returns (a : A)
| Throws (e : Thrown).
Arguments Returns {A}.
Arguments Throws {A}.

Definition M (T A : Type) : Type := World T -> Outcome A * World T.

Definition ret {T A} (a : A) : M T A := fun w => (Returns a, w).

Definition throw {T A} (e : Thrown) : M T A := fun w => (Throws e, w).

Definition bind {T A B} (m : M T A) (f : A -> M T B) : M T B :=
  fun w =>
    match m w with
    | (Returns a, w') => f a w'
    | (Throws e, w') => (Throws e, w')
    end.

Definition try_catch {T A} (m : M T A) (handler : Thrown -> M T A) : M T A :=
  fun w =>
    match m w with
    | (Returns a, w') => (Returns a, w')
    | (Throws e, w') => handler e w'
    end.

Notation "x <- m ;; k" := (bind m (fun x => k))
  (at level 61, m at next level, right associativity).
Notation "m ;;; k" := (bind m (fun _ => k))
  (at level 61, right associativity).

Section Client.
Context {T : Type}.
Variable env : Env T.

(** [this.cache.get(key)] *)
Definition cache_get (key : string) : M T (option (CacheEntry T)) :=
  fun w =>
    let r := CacheManager.get (now_get env) key (cache w) in
    (Returns (fst r), mkWorld (snd r) (requests w)).

(** [this.cache.getStale(key)] *)
Definition cache_getStale (key : string) : M T (option (CacheEntry T)) :=
  fun w => (Returns (CacheManager.getStale key (cache w)), w).

(** [this.cache.set(key, data, ttl)] *)
Definition cache_set (key : string) (d : T) (ttl : number) : M T unit :=
  fun w =>
    (Returns tt,
     mkWorld (CacheManager.set (now_set env) key d (Some ttl) (cache w))
             (requests w)).

(** [await fetch(url, ...)]: one request to the network. *)
Definition fetch (url : string) : M T (Response T) :=
  fun w =>
    let w' := mkWorld (cache w) (requests w ++ [url]) in
    match network env (List.length (requests w)) url with
    | Resolves r => (Returns r, w')
    | Rejects e => (Throws e, w')
    end.

(** [await response.json()] *)
Definition json (r : Response T) : M T T :=
  match body r with
  | JsonValue d => ret d
  | JsonRejects e => throw e
  end.

(** [`${n}`] for a status code. *)
Definition show (n : N) : string :=
  NilZero.string_of_uint (N.to_uint n).

Definition is_forced (options : option Options) : bool :=
  match options with
  | Some o => match forceRefresh o with Some b => b | None => false end
  | None => false
  end.

Definition ttl_option (options : option Options) : option number :=
  match options with
  | Some o => ttl o
  | None => None
  end.

Definition cache_key (endpoint : EndpointKey) : string :=
  ("noaa_" ++ endpoint_name endpoint)%string.

(** The answer built from a cache entry, with or without an advisory. *)
Definition from_cache (e : CacheEntry T) (advisory : option string)
  : ApiResponse T :=
  mkResponse true (Some (data e)) advisory (Some (fetchedAt e)) source_cache.

(** Lines 36-46: the early [return] of a cache hit is [Some]. *)
Definition probe (endpoint : EndpointKey) (options : option Options)
  : M T (option (ApiResponse T)) :=
  if negb (is_forced options) then
    cached <- cache_get (cache_key endpoint) ;;
    match cached with
    | Some e => ret (Some (from_cache e None))
    | None => ret None
    end
  else ret None.

(** Lines 49-82: the body of the [try]. *)
Definition attempt (endpoint : EndpointKey) (options : option Options)
  : M T (ApiResponse T) :=
  response <- fetch (NOAA_ENDPOINTS endpoint) ;;
  if negb (ok response) then
    stale <- cache_getStale (cache_key endpoint) ;;
    match stale with
    | Some e =>
        ret (from_cache e
               (Some ("API returned " ++ show (status response)
                      ++ ", using stale cache")%string))
    | None =>
        throw (ErrorObject ("HTTP " ++ show (status response) ++ ": "
                            ++ statusText response)%string)
    end
  else
    d <- json response ;;
    let ttl := match ttl_option options with
               | Some x => x
               | None => getTtlForEndpoint endpoint
               end in
    cache_set (cache_key endpoint) d ttl ;;;
    ret (mkResponse true (Some d) None (Some (now_return env)) source_fetch).

(** Lines 83-101: the [catch] clause. *)
Definition recover (endpoint : EndpointKey) (e : Thrown)
  : M T (ApiResponse T) :=
  stale <- cache_getStale (cache_key endpoint) ;;
  match stale with
  | Some s =>
      ret (from_cache s
             (Some ("Fetch failed: " ++ message_of e
                    ++ ", using stale cache")%string))
  | None =>
      ret (mkResponse false None (Some (message_of e)) None source_fetch)
  end.

Definition fetchEndpoint (endpoint : EndpointKey) (options : option Options)
  : M T (ApiResponse T) :=
  hit <- probe endpoint options ;;
  match hit with
  | Some r => ret r
  | None => try_catch (attempt endpoint options) (recover endpoint)
  end.
(** [getCacheStats()] *)
Definition getCacheStats : M T Stats :=
  fun w => (Returns (CacheManager.getStats (cache w)), w).

(** [clearCache()] *)
Definition clearCache : M T unit :=
  fun w => (Returns tt, mkWorld (CacheManager.invalidateAll (cache w)) (requests w)).
End Client.

End NoaaClient.

(** ** Histories of cache operations *)

(** A call of a public method of [CacheManager], with the reading of
    [Date.now()] it gets where the method reads the clock. *)
Inductive Op (T : Type) : Type :=
| OpGet (now : number) (key : string)
| OpSet (now : number) (key : string) (d : T) (ttlOverride : option number)
| OpInvalidate (key : string)
| OpInvalidateAll.
Arguments OpGet {T}.
Arguments OpSet {T}.
Arguments OpInvalidate {T}.
Arguments OpInvalidateAll {T}.

Definition step {T} (c : CacheManager.t T) (op : Op T) : CacheManager.t T :=
  match op with
  | OpGet now key => snd (CacheManager.get now key c)
  | OpSet now key d ttlOverride => CacheManager.set now key d ttlOverride c
  | OpInvalidate key => snd (CacheManager.invalidate key c)
  | OpInvalidateAll => CacheManager.invalidateAll c
  end.

Definition run {T} (ops : list (Op T)) (c : CacheManager.t T) : CacheManager.t T :=
  fold_left step ops c.

(** The operation is a [set] of the key. *)
Definition sets_key {T} (k : string) (op : Op T) : bool :=
  match op with
  | OpSet _ key _ _ => String.eqb key k
  | _ => false
  end.

(** The operation is a [set] of the empty string. *)
Definition sets_empty_key {T} (op : Op T) : bool := sets_key EmptyString op.

(** ** The eviction policy in words

    The entry [(k, e)] is the oldest of the map by [fetchedAt], and the first
    such in iteration order: the entries before it are strictly younger, the
    entries after it are not older. *)
Definition first_oldest {T} (m pre : JsMap (CacheManager.CacheEntry T))
    (k : string) (e : CacheManager.CacheEntry T)
    (post : JsMap (CacheManager.CacheEntry T)) : Prop :=
  m = pre ++ (k, e) :: post
  /\ Forall (fun x => CacheManager.fetchedAt e < CacheManager.fetchedAt (snd x)) pre
  /\ Forall (fun x => CacheManager.fetchedAt e <= CacheManager.fetchedAt (snd x)) post.

(** ** Outcomes of the external retrieval *)

(** The payload of a retrieval that completes: a 2xx response whose body
    decodes. [None] is a failed retrieval: [fetch] rejected, the status is
    not 2xx, or [json()] rejected. *)
Definition retrieved {T} (reply : NoaaClient.Reply T) : option T :=
  match reply with
  | NoaaClient.Resolves r =>
      if NoaaClient.ok r then
        match NoaaClient.body r with
        | NoaaClient.JsonValue d => Some d
        | NoaaClient.JsonRejects _ => None
        end
      else None
  | NoaaClient.Rejects _ => None
  end.

(** The reply of the network to the request a call makes in the world [w]. *)
Definition reply_of {T} (env : NoaaClient.Env T) (endpoint : NoaaClient.EndpointKey)
    (w : NoaaClient.World T) : NoaaClient.Reply T :=
  NoaaClient.network env (List.length (NoaaClient.requests w))
                     (NoaaClient.NOAA_ENDPOINTS endpoint).

(** The cache as the probe of lines 36-46 leaves it. *)
Definition after_probe {T} (env : NoaaClient.Env T) (endpoint : NoaaClient.EndpointKey)
    (options : option NoaaClient.Options) (c : CacheManager.t T) : CacheManager.t T :=
  if NoaaClient.is_forced options then c
  else snd (CacheManager.get (NoaaClient.now_get env) (NoaaClient.cache_key endpoint) c).

(** The live entry the probe finds, when the refresh is not forced: the
    call answers from it without a request. [None]: the probe misses, and
    the call goes on to the network. *)
Definition probe_hit {T} (env : NoaaClient.Env T) (endpoint : NoaaClient.EndpointKey)
    (options : option NoaaClient.Options) (c : CacheManager.t T)
  : option (CacheManager.CacheEntry T) :=
  if NoaaClient.is_forced options then None
  else fst (CacheManager.get (NoaaClient.now_get env)
              (NoaaClient.cache_key endpoint) c).

(** The TTL of the entry a successful call stores. *)
Definition effective_ttl (endpoint : NoaaClient.EndpointKey)
    (options : option NoaaClient.Options) : number :=
  match NoaaClient.ttl_option options with
  | Some x => x
  | None => NoaaClient.getTtlForEndpoint endpoint
  end.

(** The world after the request of a call, with the cache [c]. *)
Definition requested {T} (endpoint : NoaaClient.EndpointKey)
    (c : CacheManager.t T) (w : NoaaClient.World T) : NoaaClient.World T :=
  NoaaClient.mkWorld c
    (NoaaClient.requests w ++ [NoaaClient.NOAA_ENDPOINTS endpoint]).

(** ** Sample states *)

(** One entry for the key of [KP_INDEX], fetched at 0 ms with the TTL of
    180 s, in a cache with the default configuration. *)
Definition kp_entry : CacheManager.CacheEntry string :=
  CacheManager.mkEntry "old"%string 0 180000.

Definition kp_cache : CacheManager.t string :=
  CacheManager.mkCache [("noaa_KP_INDEX"%string, kp_entry)]
                       CacheManager.DEFAULT_CACHE_CONFIG.

(** A cache of capacity one, with a TTL of 60 s. *)
Definition one_slot : CacheManager.CacheConfig := CacheManager.mkConfig 60 1.

(** A cache of capacity one that is full, its entry stored under the empty
    string: the state after [set('', 'v0')] at 0 ms on the empty cache. *)
Definition empty_key_cache : CacheManager.t string :=
  CacheManager.mkCache [(EmptyString, CacheManager.mkEntry "v0"%string 0 60000)]
                       one_slot.

(** A cache of capacity two that is full. *)
Definition two_slots_cache : CacheManager.t string :=
  CacheManager.mkCache
    [("a"%string, CacheManager.mkEntry "va"%string 5 60005);
     ("b"%string, CacheManager.mkEntry "vb"%string 3 60003)]
    (CacheManager.mkConfig 60 2).

(** The network answers every request with 503. *)
Definition unavailable : NoaaClient.Response string :=
  NoaaClient.mkHttp 503 "Service Unavailable"%string
                    (NoaaClient.JsonRejects NoaaClient.NotAnError).

(** An environment in which the network is down and every reading of the
    clock is 200000 ms, after the entry of [kp_cache] has expired. *)
Definition outage : NoaaClient.Env string :=
  NoaaClient.mkEnv (fun _ _ => NoaaClient.Resolves unavailable) 200000 200000 200000.

(** A client with the cache [kp_cache] that has made no request yet. *)
Definition kp_world : NoaaClient.World string :=
  NoaaClient.mkWorld kp_cache [].

(** An environment in which the network answers 200 with the payload
    ["new"], at 200000 ms. *)
Definition online : NoaaClient.Env string :=
  NoaaClient.mkEnv
    (fun _ _ => NoaaClient.Resolves
                  (NoaaClient.mkHttp 200 "OK"%string (NoaaClient.JsonValue "new"%string)))
    200000 200000 200000.

Definition forced : option NoaaClient.Options :=
  Some (NoaaClient.mkOptions (Some true) None).

(** The scenario of the test suite: [set('key-0', ...)], ...,
    [set('key-14', ...)] at the times 0, ..., 14 ms. *)
Definition key_n (i : nat) : string :=
  ("key-" ++ NoaaClient.show (N.of_nat i))%string.

Definition fifteen_sets : list (Op string) :=
  map (fun i => OpSet (inject_Z (Z.of_nat i)) (key_n i) "value"%string None)
      (seq 0 15).

(** ** Histories of insertions *)

(** One [set] call: the reading of the clock, the key, the payload and the
    optional TTL. *)
Record Insert (T : Type) : Type := mkInsert {
  ins_now : number;
  ins_key : string;
  ins_data : T;
  ins_ttl : option number
}.
Arguments mkInsert {T}.
Arguments ins_now {T}.
Arguments ins_key {T}.
Arguments ins_data {T}.
Arguments ins_ttl {T}.

Definition insert_op {T} (i : Insert T) : Op T :=
  OpSet (ins_now i) (ins_key i) (ins_data i) (ins_ttl i).



(** The TTL of the operation, when it is a [set] with an override. *)
Definition override_of {T} (op : Op T) : option number :=
  match op with
  | OpSet _ _ _ ttlOverride => ttlOverride
  | _ => None
  end.

(** The override of the operation, if any, is not negative. *)
Definition override_nonneg {T} (op : Op T) : Prop :=
  match override_of op with
  | Some x => 0 <= x
  | None => True
  end.

(** The entries of a map do not expire before they are fetched. *)
Definition expiry_ordered {T} (m : JsMap (CacheManager.CacheEntry T)) : Prop :=
  Forall (fun x => CacheManager.fetchedAt (snd x) <= CacheManager.expiresAt (snd x)) m.

(** Three insertions at 1, 2 and 3 ms. *)
Definition three_inserts : list (Insert string) :=
  [mkInsert 1 "p"%string "vp"%string None;
   mkInsert 2 "q"%string "vq"%string (Some 5);
   mkInsert 3 "r"%string "vr"%string None].

(** ** Histories of client calls *)

(** A call of a method of [NoaaClient] that acts on the cache, with the
    environment it runs in. *)
Inductive Call (T : Type) : Type :=
| CallFetch (env : NoaaClient.Env T) (endpoint : NoaaClient.EndpointKey)
            (options : option NoaaClient.Options)
| CallStats
| CallClear.
Arguments CallFetch {T}.
Arguments CallStats {T}.
Arguments CallClear {T}.

Definition call_step {T} (w : NoaaClient.World T) (call : Call T) : NoaaClient.World T :=
  match call with
  | CallFetch env endpoint options =>
      snd (NoaaClient.fetchEndpoint env endpoint options w)
  | CallStats => snd (NoaaClient.getCacheStats w)
  | CallClear => snd (NoaaClient.clearCache w)
  end.

Definition run_calls {T} (calls : list (Call T)) (w : NoaaClient.World T)
  : NoaaClient.World T :=
  fold_left call_step calls w.

(** The client [new NoaaClient(new CacheManager(cfg))] before any call. *)
Definition new_client {T} (cfg : CacheManager.CacheConfig) : NoaaClient.World T :=
  NoaaClient.mkWorld (CacheManager.new cfg) [].

(** ** JavaScript numbers with their special values

    The interpretation functions of [src/utils/query.ts] and the tools take
    numbers that come out of [parseFloat] and of JSON: [NaN] and the
    infinities are among them. Every comparison with [NaN] is false. *)
Inductive JsNumber : Type :=
| NaN
| NegInfinity
| Num (q : number)
| PosInfinity.

(** [x < y] *)
Definition js_lt (x y : JsNumber) : bool :=
  match x, y with
  | NaN, _ | _, NaN => false
  | NegInfinity, NegInfinity => false
  | NegInfinity, _ => true
  | _, NegInfinity => false
  | PosInfinity, _ => false
  | Num a, Num b => Qltb a b
  | Num _, PosInfinity => true
  end.

(** [x > y] *)
Definition js_gt (x y : JsNumber) : bool := js_lt y x.

(** [x <= y]: [x < y] or the two are the same number. *)
Definition js_le (x y : JsNumber) : bool :=
  match x, y with
  | NaN, _ | _, NaN => false
  | NegInfinity, _ => true
  | _, PosInfinity => true
  | Num a, Num b => Qle_bool a b
  | _, _ => false
  end.

(** [x >= y] *)
Definition js_ge (x y : JsNumber) : bool := js_le y x.

(** [x / c] for a literal [c > 0]. *)
Definition js_div (x : JsNumber) (c : number) : JsNumber :=
  match x with
  | Num q => Num (q / c)
  | other => other
  end.

(** ** [src/utils/query.ts]: the interpretation functions *)

Module Query.
Local Open Scope string_scope.

Record KpInterpretation : Type := mkKp {
  kp_level : string;
  kp_description : string;
  hfImpact : string
}.

Definition interpretKp (kp : JsNumber) : KpInterpretation :=
  if js_lt kp (Num 2) then
    mkKp "Quiet" "Geomagnetic field is quiet" "Good HF propagation conditions"
  else if js_lt kp (Num 4) then
    mkKp "Unsettled" "Geomagnetic field is unsettled"
         "Generally good HF conditions, minor disturbances possible"
  else if js_lt kp (Num 5) then
    mkKp "Active" "Geomagnetic field is active"
         "HF propagation may be affected, especially at high latitudes"
  else if js_lt kp (Num 6) then
    mkKp "Minor Storm (G1)" "Minor geomagnetic storm"
         "HF radio may experience fading at higher latitudes"
  else if js_lt kp (Num 7) then
    mkKp "Moderate Storm (G2)" "Moderate geomagnetic storm"
         "HF radio fadeouts likely at high latitudes, possible at mid-latitudes"
  else if js_lt kp (Num 8) then
    mkKp "Strong Storm (G3)" "Strong geomagnetic storm"
         "HF radio blackouts may extend to mid-latitudes"
  else if js_lt kp (Num 9) then
    mkKp "Severe Storm (G4)" "Severe geomagnetic storm"
         "HF radio communications significantly degraded"
  else
    mkKp "Extreme Storm (G5)" "Extreme geomagnetic storm"
         "HF radio communications may be impossible on most frequencies".

Record SfiInterpretation : Type := mkSfi {
  sfi_level : string;
  sfi_description : string;
  bands : list string
}.

Definition interpretSfi (sfi : JsNumber) : SfiInterpretation :=
  if js_lt sfi (Num 70) then
    mkSfi "Very Low" "Solar activity is very low" ["40m"; "80m"; "160m"]
  else if js_lt sfi (Num 90) then
    mkSfi "Low" "Solar activity is low" ["20m"; "40m"; "80m"]
  else if js_lt sfi (Num 120) then
    mkSfi "Moderate" "Solar activity is moderate" ["15m"; "20m"; "40m"]
  else if js_lt sfi (Num 150) then
    mkSfi "High" "Solar activity is high" ["10m"; "15m"; "20m"]
  else
    mkSfi "Very High" "Solar activity is very high" ["10m"; "12m"; "15m"; "17m"].

Section Flares.
(** [x.toFixed(1)], the decimal notation of a number with one digit after
    the point, is left to the runtime. *)
Variable toFixed1 : JsNumber -> string.

(** The literals [1e-8], ..., [1e-4]. *)
Definition e_8 : number := 1 # 100000000.
Definition e_7 : number := 1 # 10000000.
Definition e_6 : number := 1 # 1000000.
Definition e_5 : number := 1 # 100000.
Definition e_4 : number := 1 # 10000.

Definition fluxToClass (flux : JsNumber) : string :=
  if js_lt flux (Num e_7) then String "A" (toFixed1 (js_div flux e_8))
  else if js_lt flux (Num e_6) then String "B" (toFixed1 (js_div flux e_7))
  else if js_lt flux (Num e_5) then String "C" (toFixed1 (js_div flux e_6))
  else if js_lt flux (Num e_4) then String "M" (toFixed1 (js_div flux e_5))
  else String "X" (toFixed1 (js_div flux e_4)).

Record XrayInterpretation : Type := mkXray {
  class : string;
  category : string;
  xray_description : string;
  radioImpact : string
}.

(** [c.toUpperCase()] for one character: the letters [a] to [z] go to [A] to
    [Z]. A string is the sequence of the bytes of its UTF-8 form; no
    character outside ASCII has one of the letters of the [switch] as its
    upper case, so that a byte from 128 up is left as it is. *)
Definition upper (a : ascii) : ascii :=
  let n := nat_of_ascii a in
  if (97 <=? n)%nat && (n <=? 122)%nat then ascii_of_nat (n - 32) else a.

(** [s.charAt(0).toUpperCase()] *)
Definition classLetter (s : string) : string :=
  match s with
  | EmptyString => EmptyString
  | String a _ => String (upper a) EmptyString
  end.

(** [interpretXrayFlux(fluxOrClass)]: a number is [inl], a string [inr]. *)
Definition interpretXrayFlux (fluxOrClass : JsNumber + string) : XrayInterpretation :=
  let flareClass := match fluxOrClass with
                    | inl flux => fluxToClass flux
                    | inr s => s
                    end in
  let letter := classLetter flareClass in
  if (letter =? "A")%string || (letter =? "B")%string then
    mkXray flareClass "Background" "Background X-ray flux levels"
           "No impact on HF radio"
  else if (letter =? "C")%string then
    mkXray flareClass "Small" "Small solar flare"
           "Minor impact on HF radio at low frequencies"
  else if (letter =? "M")%string then
    mkXray flareClass "Medium" "Medium solar flare"
           "Moderate to strong HF radio fadeouts on sunlit side"
  else if (letter =? "X")%string then
    mkXray flareClass "Major" "Major solar flare"
           "Strong to complete HF radio blackouts on sunlit side"
  else
    mkXray flareClass "Unknown" "Unknown flare classification" "Unknown".
End Flares.

(** [interpretXrayClass(flareClass)]: the result without its [class]. The
    argument is a string, and [toFixed] is not reached. *)
Definition interpretXrayClass (flareClass : string) : string * string * string :=
  let result := interpretXrayFlux (fun _ => EmptyString) (inr flareClass) in
  (category result, xray_description result, radioImpact result).

Section TimeAgo.
(** [new Date(dateString).getTime()]: the milliseconds of the date, or
    [None] for a string that is no date ([NaN]). *)
Variable date_ms : string -> option Z.

(** [`${n}`] for an integer. *)
Definition show_int (n : Z) : string := NilZero.string_of_int (Z.to_int n).

(** The result for a date that is [diffMs] milliseconds before now. *)
Definition timeAgo_of (diffMs : Z) : string :=
  let diffMins := (diffMs / 60000)%Z in
  let diffHours := (diffMins / 60)%Z in
  let diffDays := (diffHours / 24)%Z in
  if (diffMins <? 1)%Z then "just now"
  else if (diffMins <? 60)%Z then
    show_int diffMins ++ " minute" ++ (if (1 <? diffMins)%Z then "s" else "") ++ " ago"
  else if (diffHours <? 24)%Z then
    show_int diffHours ++ " hour" ++ (if (1 <? diffHours)%Z then "s" else "") ++ " ago"
  else
    show_int diffDays ++ " day" ++ (if (1 <? diffDays)%Z then "s" else "") ++ " ago".

(** [timeAgo(dateString)] at the time [now]; with no date every comparison
    is false and the numbers print as [NaN]. *)
Definition timeAgo (now : Z) (dateString : string) : string :=
  match date_ms dateString with
  | Some t => timeAgo_of (now - t)
  | None => "NaN day ago"
  end.
End TimeAgo.

End Query.

(** The levels of [interpretKp] and of [interpretSfi], from the calmest. *)
Definition kp_levels : list string :=
  ["Quiet"; "Unsettled"; "Active"; "Minor Storm (G1)"; "Moderate Storm (G2)";
   "Strong Storm (G3)"; "Severe Storm (G4)"; "Extreme Storm (G5)"]%string.

Definition sfi_levels : list string :=
  ["Very Low"; "Low"; "Moderate"; "High"; "Very High"]%string.

(** The place of a string in a list; the length of the list when it is not
    there. *)
Fixpoint index_of (s : string) (l : list string) : nat :=
  match l with
  | [] => 0
  | x :: rest => if String.eqb x s then 0 else S (index_of s rest)
  end.

(** ** JavaScript values and objects

    The values [queryData] reads out of its records. An object or an array
    is seen through its properties: [o k] is the value of [o[k]],
    [VUndefined] when there is none. A value that is itself an object
    carries the identity [===] compares. *)
Inductive JsValue : Type :=
| VUndefined
| VNull
| VBool (b : bool)
| VNumber (n : JsNumber)
| VString (s : string)
| VObject (identity : nat).

Definition JsObject : Type := string -> JsValue.

(** [a === b] *)
Definition strict_eq (a b : JsValue) : bool :=
  match a, b with
  | VUndefined, VUndefined => true
  | VNull, VNull => true
  | VBool x, VBool y => Bool.eqb x y
  | VNumber x, VNumber y =>
      match x, y with
      | Num p, Num q => Qeq_bool p q
      | NegInfinity, NegInfinity => true
      | PosInfinity, PosInfinity => true
      | _, _ => false
      end
  | VString x, VString y => String.eqb x y
  | VObject x, VObject y => Nat.eqb x y
  | _, _ => false
  end.

(** The values that count as true in a condition. *)
Definition js_truthy (v : JsValue) : bool :=
  match v with
  | VUndefined | VNull => false
  | VBool b => b
  | VNumber NaN => false
  | VNumber (Num q) => negb (Qeq_bool q 0)
  | VNumber _ => true
  | VString s => negb (String.eqb s EmptyString)
  | VObject _ => true
  end.

(** An optional string in a condition: defined and not empty. *)
Definition given (s : option string) : bool :=
  match s with
  | Some x => negb (String.eqb x EmptyString)
  | None => false
  end.

(** ** [queryData] and [getXrayFlux] of [src/noaa/client.ts] *)

Module QueryData.

Inductive SortOrder : Type := asc | desc.

(** [QueryOptions] of [src/noaa/types.ts]; [filter] is the object as
    [Object.entries] lists it. *)
Record QueryOptions : Type := mkQuery {
  startTime : option string;
  endTime : option string;
  limit : option JsNumber;
  sortBy : option string;
  sortOrder : option SortOrder;
  filter : option (list (string * JsValue))
}.

Section Runtime.
(** What the runtime decides: the time value of [new Date(v)], the
    comparison [a < b] of two values, and the order [Array.prototype.sort]
    leaves the array in for a comparison function. *)
Variable date_of : JsValue -> JsNumber.
Variable less_than : JsValue -> JsValue -> bool.
Variable sort : (JsObject -> JsObject -> Z) -> list JsObject -> list JsObject.

(** The callback of the time range filter. *)
Definition in_time_range (options : QueryOptions) (item : JsObject) : bool :=
  let timeTag := item "time_tag"%string in
  if negb (js_truthy timeTag) then true
  else
    let itemTime := date_of timeTag in
    let start := match startTime options with
                 | Some s => if given (Some s) then date_of (VString s) else Num 0
                 | None => Num 0
                 end in
    let finish := match endTime options with
                  | Some s => if given (Some s) then date_of (VString s) else PosInfinity
                  | None => PosInfinity
                  end in
    js_ge itemTime start && js_le itemTime finish.

(** The callback of the custom filter. *)
Definition matches (entries : list (string * JsValue)) (item : JsObject) : bool :=
  forallb (fun kv => strict_eq (item (fst kv)) (snd kv)) entries.

(** The comparison function of the sort. *)
Definition compare_by (sortKey : string) (order : Z) (a b : JsObject) : Z :=
  let aVal := a sortKey in
  let bVal := b sortKey in
  if strict_eq aVal bVal then 0%Z
  else if strict_eq aVal VNull || strict_eq aVal VUndefined then 1%Z
  else if strict_eq bVal VNull || strict_eq bVal VUndefined then (-1)%Z
  else if less_than aVal bVal then (- order)%Z else order.

(** [options.limit && options.limit > 0] *)
Definition limits (options : QueryOptions) : bool :=
  match limit options with
  | Some n => js_truthy (VNumber n) && js_gt n (Num 0)
  | None => false
  end.

(** [result.slice(0, n)] for [n > 0]: the fraction of [n] is dropped. *)
Definition slice_to (n : JsNumber) (l : list JsObject) : list JsObject :=
  match n with
  | Num q => firstn (Z.to_nat (Qfloor q)) l
  | PosInfinity => l
  | _ => []
  end.

Definition queryData (data : list JsObject) (options : QueryOptions) : list JsObject :=
  let result := data in
  let result := if given (startTime options) || given (endTime options)
                then List.filter (in_time_range options) result
                else result in
  let result := match filter options with
                | Some entries => List.filter (matches entries) result
                | None => result
                end in
  let result := match sortBy options with
                | Some sortKey =>
                    if given (Some sortKey) then
                      sort (compare_by sortKey
                              (match sortOrder options with
                               | Some asc => 1%Z
                               | _ => (-1)%Z
                               end))
                           result
                    else result
                | None => result
                end in
  match limit options with
  | Some n => if limits options then slice_to n result else result
  | None => result
  end.

(** The records [queryData] keeps before it sorts and cuts. *)
Definition passes (options : QueryOptions) (item : JsObject) : bool :=
  (if given (startTime options) || given (endTime options)
   then in_time_range options item else true)
  && match filter options with
     | Some entries => matches entries item
     | None => true
     end.

(** [getXrayFlux(options?)]: the payload of [XRAY_FLUX] is an array of
    records. *)
Definition getXrayFlux (env : NoaaClient.Env (list JsObject))
    (options : option QueryOptions)
  : NoaaClient.M (list JsObject) (NoaaClient.ApiResponse (list JsObject)) :=
  NoaaClient.bind (NoaaClient.fetchEndpoint env NoaaClient.XRAY_FLUX None)
    (fun response =>
       match NoaaClient.success response, NoaaClient.resp_data response, options with
       | true, Some data, Some o =>
           NoaaClient.ret
             (NoaaClient.mkResponse (NoaaClient.success response)
                (Some (queryData data o))
                (NoaaClient.error response) (NoaaClient.cachedAt response)
                (NoaaClient.source response))
       | _, _, _ => NoaaClient.ret response
       end).

(** The data of the answer of [getXrayFlux] for the data of the answer of
    [fetchEndpoint]. *)
Definition queried (options : option QueryOptions) (data : list JsObject)
  : list JsObject :=
  match options with
  | Some o => queryData data o
  | None => data
  end.

(** [parseFloat(v)] and [Number.parseInt(v, 10)], left to the runtime, and
    the properties a record inherits from [Object.prototype]. *)
Variable parseFloat : JsValue -> JsNumber.
Variable parseInt10 : JsValue -> JsNumber.
Variable inherited : JsObject.

(** The record [getKpIndex] builds from a row of the table. *)
Definition kp_record (row : JsObject) : JsObject :=
  fun key =>
    if String.eqb key "time_tag" then row "0"%string
    else if String.eqb key "kp" then VNumber (parseFloat (row "1"%string))
    else if String.eqb key "a_running" then VNumber (parseFloat (row "2"%string))
    else if String.eqb key "station_count" then VNumber (parseInt10 (row "3"%string))
    else inherited key.

(** [getKpIndex(options?)]: the payload of [KP_INDEX] is an array of rows,
    the first of them the header. *)
Definition getKpIndex (env : NoaaClient.Env (list JsObject))
    (options : option QueryOptions)
  : NoaaClient.M (list JsObject) (NoaaClient.ApiResponse (list JsObject)) :=
  NoaaClient.bind (NoaaClient.fetchEndpoint env NoaaClient.KP_INDEX None)
    (fun response =>
       match NoaaClient.success response, NoaaClient.resp_data response with
       | true, Some data =>
           let rows := tl data in
           let kpData := map kp_record rows in
           NoaaClient.ret
             (NoaaClient.mkResponse (NoaaClient.success response)
                (Some (match options with
                       | Some o => queryData kpData o
                       | None => kpData
                       end))
                (NoaaClient.error response) (NoaaClient.cachedAt response)
                (NoaaClient.source response))
       | _, _ =>
           NoaaClient.ret
             (NoaaClient.mkResponse (NoaaClient.success response) None
                (NoaaClient.error response) (NoaaClient.cachedAt response)
                (NoaaClient.source response))
       end).
End Runtime.

End QueryData.

(** A sort the runtime may use: the insertion sort that keeps the order of
    the records the comparison function calls equal. *)
Fixpoint insert_by (cmp : JsObject -> JsObject -> Z) (x : JsObject)
    (l : list JsObject) : list JsObject :=
  match l with
  | [] => [x]
  | y :: rest =>
      if (0 <? cmp x y)%Z then y :: insert_by cmp x rest else x :: y :: rest
  end.

Definition insertion_sort (cmp : JsObject -> JsObject -> Z) (l : list JsObject)
  : list JsObject :=
  fold_right (insert_by cmp) [] l.

(** Three records with a [time_tag] and a [kp]. *)
Definition record (time_tag : string) (kp : number) : JsObject :=
  fun key =>
    if String.eqb key "time_tag" then VString time_tag
    else if String.eqb key "kp" then VNumber (Num kp)
    else VUndefined.

Definition three_records : list JsObject :=
  [record "t1" 2; record "t2" 5; record "t3" 5].

(** The options [{limit: 1.5, filter: {kp: 5}}]. *)
Definition five_only : QueryData.QueryOptions :=
  QueryData.mkQuery None None (Some (Num (3 # 2))) None None
    (Some [("kp"%string, VNumber (Num 5))]).

(** The options [{filter: {kp: 5}}]. *)
Definition kp_five : QueryData.QueryOptions :=
  QueryData.mkQuery None None None None None
    (Some [("kp"%string, VNumber (Num 5))]).

(** A runtime for the samples: no string is a date, no value is less than
    another, and the sort is the insertion sort. *)
Definition no_date (v : JsValue) : JsNumber := NaN.
Definition never_less (a b : JsValue) : bool := false.

(** An environment in which the network answers 200 with the three
    records, at 1000 ms. *)
Definition records_online : NoaaClient.Env (list JsObject) :=
  NoaaClient.mkEnv
    (fun _ _ => NoaaClient.Resolves
                  (NoaaClient.mkHttp 200 "OK"%string
                     (NoaaClient.JsonValue three_records)))
    1000 1000 1000.

(** ** The assessment of [analyze_propagation]

    The handler of the tool [analyze_propagation] (the tools are the second
    part of [src/server.ts]) writes a report; what is embedded here are the
    decisions it takes on the way, from the latest Kp, X-ray flux and
    [bz] of the summary: the values of its variables [overallCondition] and
    [recommendedBands], and the sentence it picks for the target band. The
    text it builds around them is left out. *)

Module Tools.
Local Open Scope string_scope.

Inductive Condition : Type := poor | fair | good | excellent.

Definition same (a b : Condition) : bool :=
  match a, b with
  | poor, poor | fair, fair | good, good | excellent, excellent => true
  | _, _ => false
  end.

(** [s.startsWith(c)] for one character. *)
Definition startsWith (c : ascii) (s : string) : bool :=
  match s with
  | String a _ => Ascii.eqb a c
  | EmptyString => false
  end.

Section Analysis.
Variable toFixed1 : JsNumber -> string.

(** Lines 496-506: [if (latestKp) { ... }], on [latestKp.kp]. *)
Definition after_kp (kp : option JsNumber) (c : Condition) : Condition :=
  match kp with
  | Some k =>
      if js_ge k (Num 5) then poor
      else if js_ge k (Num 4) then fair
      else if js_ge k (Num 2) && same c excellent then good
      else c
  | None => c
  end.

(** Lines 508-520: [if (latestXray) { ... }], on [latestXray.flux]. *)
Definition after_xray (flux : option JsNumber) (c : Condition) : Condition :=
  match flux with
  | Some f =>
      let cls := Query.class (Query.interpretXrayFlux toFixed1 (inl f)) in
      if startsWith "X" cls then poor
      else if startsWith "M" cls && negb (same c poor) then fair
      else if startsWith "C" cls && same c excellent then good
      else c
  | None => c
  end.

(** Lines 522-533: [if (latestSolarWind) { ... }], on [latestSolarWind.bz]. *)
Definition after_solar_wind (bz : option JsNumber) (c : Condition) : Condition :=
  match bz with
  | Some b =>
      if js_lt b (Num (-10)) then
        if same c good || same c excellent then fair else c
      else c
  | None => c
  end.

(** The value of [overallCondition] on line 536. *)
Definition overallCondition (kp flux bz : option JsNumber) : Condition :=
  after_solar_wind bz (after_xray flux (after_kp kp excellent)).

(** Lines 536-542. *)
Definition recommendedBands (c : Condition) : list string :=
  match c with
  | excellent | good => ["10m"; "12m"; "15m"; "17m"; "20m"]
  | fair => ["20m"; "30m"; "40m"]
  | poor => ["40m"; "80m"; "160m"]
  end.

(** The four sentences of lines 548-566. *)
Inductive Remark : Type :=
| significantly_degraded
| reasonable_in_daylight
| reliable
| less_affected.

(** [s.toLowerCase()], byte by byte: the letters [A] to [Z] go to [a] to
    [z]. The result is compared with band names made of digits and [m], and
    no character outside ASCII has one of these as its lower case. *)
Definition lower (a : ascii) : ascii :=
  let n := nat_of_ascii a in
  if (65 <=? n)%nat && (n <=? 90)%nat then ascii_of_nat (n + 32) else a.

Fixpoint toLowerCase (s : string) : string :=
  match s with
  | EmptyString => EmptyString
  | String a rest => String (lower a) (toLowerCase rest)
  end.

(** [bands.includes(s)] *)
Definition includes (bands : list string) (s : string) : bool :=
  existsb (String.eqb s) bands.

(** Lines 548-566, for a target band that is given and not empty. *)
Definition band_remark (targetBand : string) (c : Condition) : Remark :=
  let targetLower := toLowerCase targetBand in
  if includes ["10m"; "12m"; "15m"; "17m"] targetLower then
    if same c poor then significantly_degraded else reasonable_in_daylight
  else if includes ["20m"; "30m"; "40m"] targetLower then reliable
  else less_affected.
End Analysis.

(** The place of a condition on the scale from poor to excellent. *)
Definition rank (c : Condition) : nat :=
  match c with
  | poor => 0
  | fair => 1
  | good => 2
  | excellent => 3
  end.

End Tools.

(** A table of the Kp index: the header and two rows. *)
Definition cells (c0 c1 c2 c3 : string) : JsObject :=
  fun key =>
    if String.eqb key "0" then VString c0
    else if String.eqb key "1" then VString c1
    else if String.eqb key "2" then VString c2
    else if String.eqb key "3" then VString c3
    else VUndefined.

Definition kp_table : list JsObject :=
  [cells "time_tag" "Kp" "a_running" "station_count";
   cells "2024-01-01 00:00:00" "2.33" "9" "8";
   cells "2024-01-01 03:00:00" "5.00" "48" "8"].

Definition table_online : NoaaClient.Env (list JsObject) :=
  NoaaClient.mkEnv
    (fun _ _ => NoaaClient.Resolves
                  (NoaaClient.mkHttp 200 "OK"%string (NoaaClient.JsonValue kp_table)))
    1000 1000 1000.

Definition no_number (v : JsValue) : JsNumber := NaN.
Definition no_property : JsObject := fun _ => VUndefined.

(** ** [parseQueryString] and [parseValue] of [src/utils/query.ts]

    A string is the sequence of the bytes of its UTF-8 form. The query
    string is cut at the ASCII characters [&] and [=], which are bytes of no
    other character. [toLowerCase] is [Tools.toLowerCase]: its results are
    compared with names made of the letters [a] to [y] without [k], and no
    character outside ASCII has one of these letters as its lower case.
    [parseInt] and [parseFloat] are those of the runtime: the functions
    take them as parameters. *)

Module QueryString.
Import QueryData.
Local Open Scope string_scope.

(** [s.split(c)] for a separator of one character. *)
Fixpoint split (sep : ascii) (s : string) : list string :=
  match s with
  | EmptyString => [EmptyString]
  | String a rest =>
      if Ascii.eqb a sep then EmptyString :: split sep rest
      else match split sep rest with
           | piece :: pieces => String a piece :: pieces
           | [] => [String a EmptyString]
           end
  end.

Definition bytes (l : list nat) : string :=
  string_of_list_ascii (map ascii_of_nat l).

(** The white space and line terminators [trim] removes: tab, line feed,
    vertical tab, form feed, carriage return, space, U+00A0, U+1680,
    U+2000 to U+200A, U+2028, U+2029, U+202F, U+205F, U+3000 and U+FEFF. *)
Definition white_space_bytes : list (list nat) :=
  (app [[9]; [10]; [11]; [12]; [13]; [32]; [194; 160]; [225; 154; 128]]
       (app (map (fun n => [226; 128; n]) (seq 128 11))
            [[226; 128; 168]; [226; 128; 169]; [226; 128; 175]; [226; 129; 159];
             [227; 128; 128]; [239; 187; 191]]))%nat.

Definition white_space : list string := map bytes white_space_bytes.

Fixpoint drop (n : nat) (s : string) : string :=
  match n, s with
  | S m, String _ rest => drop m rest
  | _, _ => s
  end.

Definition reverse (s : string) : string :=
  string_of_list_ascii (rev (list_ascii_of_string s)).

(** Removes at the front, at most [fuel] times, a member of [spaces]. *)
Fixpoint skip (spaces : list string) (fuel : nat) (s : string) : string :=
  match fuel with
  | O => s
  | S n =>
      match find (fun p => String.prefix p s) spaces with
      | Some p => skip spaces n (drop (String.length p) s)
      | None => s
      end
  end.

Definition trimStart (s : string) : string :=
  skip white_space (String.length s) s.

Definition trimEnd (s : string) : string :=
  reverse (skip (map reverse white_space) (String.length s) (reverse s)).

(** [s.trim()] *)
Definition trim (s : string) : string := trimEnd (trimStart s).

Definition is_digit (a : ascii) : bool :=
  let n := nat_of_ascii a in (48 <=? n)%nat && (n <=? 57)%nat.

(** The value of a string of decimal digits, read after [acc]. *)
Fixpoint digits_value (acc : N) (s : string) : N :=
  match s with
  | String a rest =>
      digits_value (acc * 10 + N.of_nat (nat_of_ascii a - 48)) rest
  | EmptyString => acc
  end.

(** The longest prefix of decimal digits. *)
Fixpoint leading_digits (s : string) : string :=
  match s with
  | String a rest => if is_digit a then String a (leading_digits rest) else EmptyString
  | EmptyString => EmptyString
  end.

Fixpoint all_digits (s : string) : bool :=
  match s with
  | String a rest => is_digit a && all_digits rest
  | EmptyString => true
  end.

(** [value.match(/^-?\d*\.?\d+$/)] is not [null]: after an optional [-],
    digits, or digits that may be none, a point and digits. *)
Definition matches_number (value : string) : bool :=
  let body := match value with
              | String "-" rest => rest
              | _ => value
              end in
  let whole := leading_digits body in
  match drop (String.length whole) body with
  | EmptyString => negb (whole =? "")
  | String "." fraction => negb (fraction =? "") && all_digits fraction
  | _ => false
  end.

(** [Number.isNaN(n)] *)
Definition isNaN (n : JsNumber) : bool :=
  match n with
  | NaN => true
  | _ => false
  end.

(** The array index a property key is, if it is one: the decimal form,
    with no zero at its front, of an integer from 0 to 2^32 - 2. *)
Definition array_index (key : string) : option N :=
  match key with
  | EmptyString => None
  | String a rest =>
      if all_digits key && ((key =? "0") || negb (Ascii.eqb a "0"))
      then let n := digits_value 0 key in
           if (n <=? 4294967294)%N then Some n else None
      else None
  end.

(** A new property whose key is the array index [n] goes before the first
    property that is no array index or a greater one. *)
Fixpoint insert_index (n : N) (key : string) (v : JsValue)
                      (entries : list (string * JsValue))
  : list (string * JsValue) :=
  match entries with
  | [] => [(key, v)]
  | (k', v') :: rest =>
      match array_index k' with
      | Some n' =>
          if (n' <? n)%N then (k', v') :: insert_index n key v rest
          else (key, v) :: entries
      | None => (key, v) :: entries
      end
  end.

(** A new own property, in the order [Object.entries] lists the properties
    of an object: the array indices by their value, then the other keys in
    the order of their creation. *)
Definition add_property (key : string) (v : JsValue)
                        (entries : list (string * JsValue))
  : list (string * JsValue) :=
  match array_index key with
  | Some n => insert_index n key v entries
  | None => entries ++ [(key, v)]
  end.

(** The object [options.filter]: its own properties, and whether its
    prototype is [Object.prototype], as for the object [{}], or [null]. *)
Definition FilterObject : Type := (list (string * JsValue) * bool)%type.

Definition empty_object : FilterObject := ([], true).

(** [object[key] = v] on the filter object, for a value of [parseValue],
    which is no object. An own property is written in place. The key
    [__proto__] that is no own property reaches the setter of
    [Object.prototype] while the object inherits from it: [null] takes
    the prototype away, another value changes nothing. Any other write
    creates an own property. *)
Definition assign (key : string) (v : JsValue) (object : FilterObject)
  : FilterObject :=
  let (entries, inherits) := object in
  if map_has key entries then (map_set key v entries, inherits)
  else if (key =? "__proto__") && inherits then
    match v with
    | VNull => (entries, false)
    | _ => object
    end
  else (add_property key v entries, inherits).

Section Runtime.
(** [parseInt(s, 10)] and [parseFloat(s)] *)
Variable parseInt10 : string -> JsNumber.
Variable parseFloat : string -> JsNumber.

(** [parseValue(value)] *)
Definition parseValue (value : string) : JsValue :=
  let lowered := Tools.toLowerCase value in
  if lowered =? "true" then VBool true
  else if lowered =? "false" then VBool false
  else if lowered =? "null" then VNull
  else let num := parseFloat value in
       if negb (isNaN num) && matches_number value then VNumber num
       else VString value.

(** The body of the loop for one part of the query string, on [options]
    and on whether [options.filter], once it is there, inherits from
    [Object.prototype]. *)
Definition parse_part (state : QueryOptions * bool) (part : string)
  : QueryOptions * bool :=
  let (options, inherits) := state in
  let pieces := map trim (split "=" part) in
  match pieces with
  | key :: value :: _ =>
      if (key =? "") || (value =? "") then state
      else
        let name := Tools.toLowerCase key in
        if (name =? "start") || (name =? "starttime") || (name =? "from") then
          (mkQuery (Some value) (endTime options) (limit options)
                   (sortBy options) (sortOrder options) (filter options),
           inherits)
        else if (name =? "end") || (name =? "endtime") || (name =? "to") then
          (mkQuery (startTime options) (Some value) (limit options)
                   (sortBy options) (sortOrder options) (filter options),
           inherits)
        else if (name =? "limit") || (name =? "count") then
          (mkQuery (startTime options) (endTime options) (Some (parseInt10 value))
                   (sortBy options) (sortOrder options) (filter options),
           inherits)
        else if (name =? "sort") || (name =? "sortby") then
          (mkQuery (startTime options) (endTime options) (limit options)
                   (Some value) (sortOrder options) (filter options),
           inherits)
        else if (name =? "order") || (name =? "sortorder") then
          (mkQuery (startTime options) (endTime options) (limit options)
                   (sortBy options)
                   (Some (if Tools.toLowerCase value =? "asc" then asc else desc))
                   (filter options),
           inherits)
        else
          let object := assign key (parseValue value)
                          match filter options with
                          | Some entries => (entries, inherits)
                          | None => empty_object
                          end in
          (mkQuery (startTime options) (endTime options) (limit options)
                   (sortBy options) (sortOrder options) (Some (fst object)),
           snd object)
  | _ => state
  end.

(** The options [{}]. *)
Definition no_options : QueryOptions := mkQuery None None None None None None.

Definition parseQueryString (queryString : string) : QueryOptions :=
  let parts := List.filter (fun part => negb (part =? ""))
                           (split "&" queryString) in
  fst (fold_left parse_part parts (no_options, true)).
End Runtime.

(** The names the [switch] knows. *)
Definition known_names : list string :=
  ["start"; "starttime"; "from"; "end"; "endtime"; "to"; "limit"; "count";
   "sort"; "sortby"; "order"; "sortorder"].

End QueryString.

(** The character occurs in the string. *)
Fixpoint occurs (c : ascii) (s : string) : bool :=
  match s with
  | String a rest => Ascii.eqb a c || occurs c rest
  | EmptyString => false
  end.

(** The values [parseValue] can return: a boolean, [null], a number that is
    not [NaN], or a string. *)
Definition plain_value (v : JsValue) : bool :=
  match v with
  | VBool _ | VNull | VString _ => true
  | VNumber n => negb (QueryString.isNaN n)
  | _ => false
  end.

(** A pair of the filter that [parseQueryString] can build: the key is not
    empty and is none of the names of the [switch] in any case of its
    letters, and the value is plain. *)
Definition filter_pair (kv : string * JsValue) : Prop :=
  fst kv <> EmptyString
  /\ existsb (String.eqb (Tools.toLowerCase (fst kv))) QueryString.known_names = false
  /\ plain_value (snd kv) = true.

(** The part of the query string sets [__proto__] to [null]: its first
    piece is [__proto__] and its second one is [null] in some case of its
    letters. *)
Definition sets_prototype_null (part : string) : Prop :=
  exists value rest,
    map QueryString.trim (QueryString.split "=" part)
    = "__proto__"%string :: value :: rest
    /\ Tools.toLowerCase value = "null"%string.

(** A [parseFloat] and a [parseInt] for samples: the value of a string of
    one to fifteen digits, and [NaN] for any other string. *)
Definition short_digits (s : string) : JsNumber :=
  if QueryString.all_digits s && negb (String.eqb s EmptyString)
     && (String.length s <=? 15)%nat
  then Num (inject_Z (Z.of_N (QueryString.digits_value 0 s)))
  else NaN.

(** * Properties *)

(** ** Comparison of numbers *)

Lemma Qltb_lt (x y : number) : Qltb x y = true <-> x < y.
Proof. unfold Qltb, Qlt. apply Z.ltb_lt. Qed.

Lemma Qltb_ge (x y : number) : Qltb x y = false <-> y <= x.
Proof. unfold Qltb, Qle. apply Z.ltb_ge. Qed.

(** ** The insertion-ordered map *)

Section JsMapFacts.
Context {V : Type}.
Implicit Types (m : JsMap V) (k : string) (v : V).

Lemma map_get_remove_same k m : map_get k (map_remove k m) = None.
Proof.
  unfold map_remove.
  induction m as [|[k' v'] rest IH]; simpl; [reflexivity|].
  destruct (String.eqb k' k) eqn:E; simpl; [exact IH|].
  rewrite E. exact IH.
Qed.

Lemma map_get_remove_other k k' m :
  k <> k' -> map_get k' (map_remove k m) = map_get k' m.
Proof.
  intros Hne. unfold map_remove.
  induction m as [|[k0 v0] rest IH]; simpl; [reflexivity|].
  destruct (String.eqb k0 k) eqn:E; simpl.
  - apply String.eqb_eq in E. subst k0.
    destruct (String.eqb k k') eqn:E'; [|exact IH].
    apply String.eqb_eq in E'. contradiction.
  - destruct (String.eqb k0 k'); [reflexivity|exact IH].
Qed.

Lemma map_get_set_same k v m : map_get k (map_set k v m) = Some v.
Proof.
  induction m as [|[k' v'] rest IH]; simpl.
  - now rewrite String.eqb_refl.
  - destruct (String.eqb k' k) eqn:E; simpl.
    + now rewrite String.eqb_refl.
    + now rewrite E.
Qed.

Lemma map_get_set_other k k' v m :
  k <> k' -> map_get k' (map_set k v m) = map_get k' m.
Proof.
  intros Hne.
  induction m as [|[k0 v0] rest IH]; simpl.
  - destruct (String.eqb k k') eqn:E; [|reflexivity].
    apply String.eqb_eq in E. contradiction.
  - destruct (String.eqb k0 k) eqn:E; simpl.
    + apply String.eqb_eq in E. subst k0.
      destruct (String.eqb k k') eqn:E'; [|reflexivity].
      apply String.eqb_eq in E'. contradiction.
    + destruct (String.eqb k0 k'); [reflexivity|exact IH].
Qed.

Lemma map_get_in_keys k v m : map_get k m = Some v -> In k (map_keys m).
Proof.
  induction m as [|[k' v'] rest IH]; simpl; [discriminate|].
  destruct (String.eqb k' k) eqn:E.
  - apply String.eqb_eq in E. now left.
  - intros H. right. now apply IH.
Qed.

Lemma map_get_not_in_keys k m : ~ In k (map_keys m) -> map_get k m = None.
Proof.
  intros Hn. destruct (map_get k m) eqn:E; [|reflexivity].
  exfalso. apply Hn. eapply map_get_in_keys; eauto.
Qed.

Lemma in_keys_map_has k m : In k (map_keys m) -> map_has k m = true.
Proof.
  unfold map_has.
  induction m as [|[k' v'] rest IH]; simpl; [tauto|].
  intros [->|Hin].
  - now rewrite String.eqb_refl.
  - destruct (String.eqb k' k); [reflexivity|now apply IH].
Qed.

Lemma map_size_set k v m :
  map_size (map_set k v m)
  = if map_has k m then map_size m else S (map_size m).
Proof.
  unfold map_has, map_size.
  induction m as [|[k' v'] rest IH]; simpl; [reflexivity|].
  destruct (String.eqb k' k); simpl; [reflexivity|].
  rewrite IH. now destruct (map_get k rest).
Qed.

Lemma map_size_set_le k v m : (map_size (map_set k v m) <= S (map_size m))%nat.
Proof. rewrite map_size_set. destruct (map_has k m); lia. Qed.

Lemma map_size_remove_le k m : (map_size (map_remove k m) <= map_size m)%nat.
Proof. apply filter_length_le. Qed.

Lemma map_size_remove_lt k m :
  map_has k m = true -> (map_size (map_remove k m) < map_size m)%nat.
Proof.
  unfold map_has, map_size, map_remove.
  induction m as [|[k' v'] rest IH]; simpl; [discriminate|].
  destruct (String.eqb k' k); simpl.
  - intros _. pose proof (filter_length_le
      (fun kv : string * V => negb (String.eqb (fst kv) k)) rest). lia.
  - intros H. apply IH in H. lia.
Qed.

Lemma map_keys_remove k k' m :
  In k' (map_keys (map_remove k m)) -> In k' (map_keys m).
Proof.
  unfold map_keys, map_remove. rewrite !in_map_iff.
  intros [x [Hx Hin]]. apply filter_In in Hin. exists x. tauto.
Qed.

Lemma map_keys_set k k' v m :
  In k' (map_keys (map_set k v m)) -> k' = k \/ In k' (map_keys m).
Proof.
  induction m as [|[k0 v0] rest IH]; simpl.
  - intros [H|[]]. now left.
  - destruct (String.eqb k0 k) eqn:E; simpl.
    + intros [H|H]; [now left|right; now right].
    + intros [H|H]; [right; now left|].
      destruct (IH H) as [H'|H']; [now left|right; now right].
Qed.

(** Removing the key of the middle entry of a well-formed map removes that
    entry and nothing else. *)
Lemma map_remove_middle k v (pre post : JsMap V) :
  map_wf (pre ++ (k, v) :: post) ->
  map_remove k (pre ++ (k, v) :: post) = pre ++ post.
Proof.
  unfold map_wf, map_keys, map_remove. intros Hwf.
  rewrite map_app in Hwf. simpl in Hwf.
  assert (Hnot : forall x, In x (pre ++ post) -> fst x <> k).
  { intros x Hx Heq. apply NoDup_remove_2 in Hwf. apply Hwf.
    rewrite <- map_app. apply in_map_iff. exists x. tauto. }
  rewrite filter_app. simpl. rewrite String.eqb_refl. simpl.
  rewrite <- filter_app.
  apply forallb_filter_id. apply forallb_forall.
  intros x Hx. apply negb_true_iff. apply String.eqb_neq. now apply Hnot.
Qed.

Lemma map_wf_remove k m : map_wf m -> map_wf (map_remove k m).
Proof.
  unfold map_wf, map_keys, map_remove.
  induction m as [|[k' v'] rest IH]; simpl; [trivial|].
  intros Hwf. inversion Hwf as [|? ? Hnin Hrest]; subst.
  destruct (String.eqb k' k); simpl; [now apply IH|].
  constructor; [|now apply IH].
  intros Hin. apply Hnin. now apply (map_keys_remove k k' rest).
Qed.

Lemma map_wf_set k v m : map_wf m -> map_wf (map_set k v m).
Proof.
  unfold map_wf, map_keys.
  induction m as [|[k' v'] rest IH]; simpl.
  - intros _. constructor; [tauto|constructor].
  - intros Hwf. inversion Hwf as [|? ? Hnin Hrest]; subst.
    destruct (String.eqb k' k) eqn:E; simpl.
    + apply String.eqb_eq in E. subst k'. now constructor.
    + constructor; [|now apply IH].
      intros Hin. apply (map_keys_set k k' v rest) in Hin.
      destruct Hin as [->|Hin]; [|contradiction].
      now rewrite String.eqb_refl in E.
Qed.
End JsMapFacts.

(** ** The scan of [evictOldest] *)

Section EvictionFacts.
Context {T : Type}.
Import CacheManager.
Implicit Types (m pre post : JsMap (CacheEntry T)) (e : CacheEntry T).

Lemma scan_step_younger e pre acc :
  Forall (fun x => fetchedAt e < fetchedAt (snd x)) pre ->
  lt_bound (fetchedAt e) (snd acc) = true ->
  lt_bound (fetchedAt e) (snd (fold_left scan_step pre acc)) = true.
Proof.
  intros Hpre. revert acc.
  induction Hpre as [|x pre Hx _ IH]; intros acc Hacc; simpl; [exact Hacc|].
  apply IH. unfold scan_step.
  destruct (lt_bound (fetchedAt (snd x)) (snd acc)); simpl; [|exact Hacc].
  now apply Qltb_lt.
Qed.

Lemma scan_step_not_older k e post :
  Forall (fun x => fetchedAt e <= fetchedAt (snd x)) post ->
  fold_left scan_step post (Some k, Finite (fetchedAt e))
  = (Some k, Finite (fetchedAt e)).
Proof.
  induction 1 as [|x post Hx _ IH]; simpl; [reflexivity|].
  unfold scan_step at 2. simpl.
  apply Qltb_ge in Hx. rewrite Hx. exact IH.
Qed.

(** The scan stops on the first oldest entry. *)
Lemma scan_first_oldest m pre k e post :
  first_oldest m pre k e post ->
  scan m = (Some k, Finite (fetchedAt e)).
Proof.
  intros (-> & Hpre & Hpost). unfold scan.
  rewrite fold_left_app. simpl.
  pose proof (scan_step_younger e pre (None, POSITIVE_INFINITY) Hpre eq_refl) as H.
  unfold scan_step at 2. simpl. rewrite H.
  now apply scan_step_not_older.
Qed.

(** A map that is not empty has a first oldest entry. *)
Lemma first_oldest_exists m :
  m <> [] -> exists pre k e post, first_oldest m pre k e post.
Proof.
  induction m as [|[k0 e0] rest IH]; [congruence|]. intros _.
  destruct rest as [|y rest'].
  - exists [], k0, e0, []. repeat split; constructor.
  - destruct IH as (pre & k & e & post & Heq & Hpre & Hpost); [discriminate|].
    destruct (Qlt_le_dec (fetchedAt e) (fetchedAt e0)) as [Hlt|Hle].
    + exists ((k0, e0) :: pre), k, e, post. repeat split.
      * simpl. now rewrite Heq.
      * constructor; assumption.
      * assumption.
    + exists [], k0, e0, (y :: rest'). repeat split; [constructor|].
      rewrite Heq. apply Forall_app. split; [|constructor].
      * eapply Forall_impl; [|exact Hpre]. simpl. intros a Ha. lra.
      * simpl. exact Hle.
      * eapply Forall_impl; [|exact Hpost]. simpl. intros a Ha. lra.
Qed.

Lemma first_oldest_key_in m pre k e post :
  first_oldest m pre k e post -> In k (map_keys m).
Proof.
  intros (-> & _). unfold map_keys. rewrite map_app. simpl.
  apply in_or_app. right. now left.
Qed.

Lemma first_oldest_unique m pre k e post pre' k' e' post' :
  first_oldest m pre k e post ->
  first_oldest m pre' k' e' post' ->
  k = k' /\ fetchedAt e = fetchedAt e'.
Proof.
  intros H H'. apply scan_first_oldest in H. apply scan_first_oldest in H'.
  rewrite H in H'. inversion H'. auto.
Qed.

(** [evictOldest] on a map whose first oldest entry has a key that is not
    the empty string: that entry goes, the others stay in their order. *)
Lemma evictOldest_first_oldest (c : t T) pre k e post :
  map_wf (memoryCache c) ->
  first_oldest (memoryCache c) pre k e post ->
  k <> EmptyString ->
  evictOldest c = with_map c (pre ++ post).
Proof.
  intros Hwf Hfo Hk. unfold evictOldest.
  rewrite (scan_first_oldest _ _ _ _ _ Hfo). simpl.
  apply String.eqb_neq in Hk. rewrite Hk. simpl.
  destruct Hfo as (Heq & _). rewrite Heq in *.
  now rewrite map_remove_middle.
Qed.

(** [evictOldest] when the first oldest entry is stored under the empty
    string: the test [if (oldestKey)] fails and nothing is deleted. *)
Lemma evictOldest_empty_key (c : t T) pre e post :
  first_oldest (memoryCache c) pre EmptyString e post ->
  evictOldest c = c.
Proof.
  intros Hfo. unfold evictOldest.
  now rewrite (scan_first_oldest _ _ _ _ _ Hfo).
Qed.

Lemma evictOldest_config (c : t T) : config (evictOldest c) = config c.
Proof.
  unfold evictOldest.
  destruct (truthy _); [|reflexivity].
  now destruct (fst (scan (memoryCache c))).
Qed.

Lemma evictOldest_size_le (c : t T) :
  (map_size (memoryCache (evictOldest c)) <= map_size (memoryCache c))%nat.
Proof.
  unfold evictOldest.
  destruct (truthy _); [|lia].
  destruct (fst (scan (memoryCache c))); simpl; [|lia].
  apply map_size_remove_le.
Qed.

Lemma evictOldest_keys (c : t T) k :
  In k (map_keys (memoryCache (evictOldest c))) -> In k (map_keys (memoryCache c)).
Proof.
  unfold evictOldest.
  destruct (truthy _); [|trivial].
  destruct (fst (scan (memoryCache c))); simpl; [|trivial].
  apply map_keys_remove.
Qed.

(** With no empty-string key in a map that is not empty, [evictOldest]
    makes the map smaller. *)
Lemma evictOldest_size_lt (c : t T) :
  memoryCache c <> [] ->
  ~ In EmptyString (map_keys (memoryCache c)) ->
  (map_size (memoryCache (evictOldest c)) < map_size (memoryCache c))%nat.
Proof.
  intros Hne Hkeys.
  destruct (first_oldest_exists _ Hne) as (pre & k & e & post & Hfo).
  pose proof (first_oldest_key_in _ _ _ _ _ Hfo) as Hin.
  unfold evictOldest. rewrite (scan_first_oldest _ _ _ _ _ Hfo). simpl.
  assert (Hk : k <> EmptyString) by (intros ->; contradiction).
  apply String.eqb_neq in Hk. rewrite Hk. simpl.
  apply map_size_remove_lt. now apply in_keys_map_has.
Qed.

Lemma evictOldest_wf (c : t T) :
  map_wf (memoryCache c) -> map_wf (memoryCache (evictOldest c)).
Proof.
  intros Hwf. unfold evictOldest.
  destruct (truthy _); [|exact Hwf].
  destruct (fst (scan (memoryCache c))); simpl; [|exact Hwf].
  now apply map_wf_remove.
Qed.

End EvictionFacts.

(** ** Reads, writes and invalidation of the cache *)

Section CacheFacts.
Context {T : Type}.
Import CacheManager.
Implicit Types (c : t T) (e : CacheEntry T) (key : string) (now : number).

Lemma get_absent c now key :
  getStale key c = None -> get now key c = (None, c).
Proof. unfold getStale, get. now intros ->. Qed.

Lemma get_live c now key e :
  getStale key c = Some e -> now <= expiresAt e -> get now key c = (Some e, c).
Proof.
  unfold getStale, get. intros -> Hle.
  apply Qltb_ge in Hle. now rewrite Hle.
Qed.

Lemma get_expired c now key e :
  getStale key c = Some e -> expiresAt e < now ->
  get now key c = (None, with_map c (map_remove key (memoryCache c))).
Proof.
  unfold getStale, get. intros -> Hlt.
  apply Qltb_lt in Hlt. now rewrite Hlt.
Qed.

(** What [get] leaves of the store: the store itself, or the store without
    the key that was read. *)
Lemma get_store c now key :
  snd (get now key c) = c
  \/ snd (get now key c) = with_map c (map_remove key (memoryCache c)).
Proof.
  unfold get. destruct (map_get key (memoryCache c)); [|now left].
  destruct (Qltb _ _); [now right|now left].
Qed.

Lemma map_get_remove_none (m : JsMap (CacheEntry T)) k key :
  map_get key m = None -> map_get key (map_remove k m) = None.
Proof.
  intros H. destruct (string_dec k key) as [->|Hne].
  - apply map_get_remove_same.
  - now rewrite map_get_remove_other.
Qed.

Lemma evictOldest_absent c key :
  getStale key c = None -> getStale key (evictOldest c) = None.
Proof.
  unfold getStale, evictOldest. intros H.
  destruct (truthy _); [|exact H].
  destruct (fst (scan (memoryCache c))); simpl; [|exact H].
  now apply map_get_remove_none.
Qed.

(** An operation that is not a [set] of the key leaves the key absent. *)
Lemma step_absent c (op : Op T) key :
  sets_key key op = false ->
  getStale key c = None -> getStale key (step c op) = None.
Proof.
  intros Hop Habs. destruct op as [now k|now k d ttl|k|]; simpl in *.
  - destruct (get_store c now k) as [->| ->]; [exact Habs|].
    unfold getStale in *. simpl. now apply map_get_remove_none.
  - unfold set. unfold getStale at 1. simpl.
    apply String.eqb_neq in Hop. rewrite map_get_set_other by exact Hop.
    destruct (_ <=? _)%Z; [|exact Habs].
    now apply evictOldest_absent.
  - unfold getStale in *. simpl. now apply map_get_remove_none.
  - reflexivity.
Qed.

Lemma run_absent (ops : list (Op T)) c key :
  forallb (fun op => negb (sets_key key op)) ops = true ->
  getStale key c = None -> getStale key (run ops c) = None.
Proof.
  revert c. induction ops as [|op ops IH]; intros c Hops Habs; simpl in *.
  - exact Habs.
  - apply andb_true_iff in Hops. destruct Hops as [Hop Hops].
    apply negb_true_iff in Hop.
    apply IH; [exact Hops|]. now apply step_absent.
Qed.

(** The keys of the store stay pairwise distinct. *)
Lemma step_wf c (op : Op T) :
  map_wf (memoryCache c) -> map_wf (memoryCache (step c op)).
Proof.
  intros Hwf. destruct op as [now k|now k d ttl|k|]; simpl.
  - destruct (get_store c now k) as [->| ->]; [exact Hwf|].
    simpl. now apply map_wf_remove.
  - unfold set. simpl. apply map_wf_set.
    destruct (_ <=? _)%Z; [now apply evictOldest_wf|exact Hwf].
  - now apply map_wf_remove.
  - constructor.
Qed.

Lemma run_wf (ops : list (Op T)) c :
  map_wf (memoryCache c) -> map_wf (memoryCache (run ops c)).
Proof.
  revert c. induction ops as [|op ops IH]; intros c Hwf; simpl; [exact Hwf|].
  apply IH. now apply step_wf.
Qed.

Lemma step_config c (op : Op T) : config (step c op) = config c.
Proof.
  destruct op as [now k|now k d ttl|k|]; simpl; try reflexivity.
  - destruct (get_store c now k) as [->| ->]; reflexivity.
  - unfold set. simpl. destruct (_ <=? _)%Z; [apply evictOldest_config|reflexivity].
Qed.

Lemma run_config (ops : list (Op T)) c : config (run ops c) = config c.
Proof.
  revert c. induction ops as [|op ops IH]; intros c; simpl; [reflexivity|].
  rewrite IH. apply step_config.
Qed.

(** The entry [set] stores. *)
Lemma getStale_set c now key (d : T) ttlOverride :
  getStale key (set now key d ttlOverride c)
  = Some (mkEntry d now
            (now + match ttlOverride with
                   | Some x => x
                   | None => ttlSeconds (config c)
                   end * 1000)).
Proof. unfold getStale, set. simpl. apply map_get_set_same. Qed.

End CacheFacts.

(** ** The contract of the cache store *)

Section CacheContract.
Context {T : Type}.
Import CacheManager.

(** C1, as amended. A stored entry is expired exactly when [expiresAt < now]:
    [get] at such a time deletes the entry and returns [null], while
    [getStale] on the same store returns the entry as stored; at
    [now <= expiresAt], the instant [now = expiresAt] included, [get]
    returns the entry and leaves the store as it is. *)
Theorem get_expiry (c : t T) (now : number) (key : string) (e : CacheEntry T) :
  map_get key (memoryCache c) = Some e ->
  getStale key c = Some e
  /\ (fst (get now key c) = None <-> expiresAt e < now)
  /\ (expiresAt e < now ->
      get now key c = (None, with_map c (map_remove key (memoryCache c)))
      /\ getStale key (snd (get now key c)) = None)
  /\ (now <= expiresAt e -> get now key c = (Some e, c)).
Proof.
  intros Hget. assert (Hstale : getStale key c = Some e) by exact Hget.
  split; [exact Hstale|]. split; [|split].
  - split.
    + intros Hnone. destruct (Qlt_le_dec (expiresAt e) now) as [Hlt|Hle]; [exact Hlt|].
      rewrite (get_live c now key e Hstale Hle) in Hnone. discriminate.
    + intros Hlt. now rewrite (get_expired c now key e Hstale Hlt).
  - intros Hlt. rewrite (get_expired c now key e Hstale Hlt). split; [reflexivity|].
    unfold getStale. simpl. apply map_get_remove_same.
  - intros Hle. exact (get_live c now key e Hstale Hle).
Qed.

(** C7. [invalidate(k)] returns [true] exactly when [k] was in the store and
    [false] exactly when it was not; a [get(k)] after it returns [null]; a
    [get(k)] for a key that is not stored returns [null] and changes nothing;
    and a key that no [set] of a history names is not stored after it. *)
Theorem invalidate_then_get (c : t T) (key : string) :
  (fst (invalidate key c) = true <-> exists e, getStale key c = Some e)
  /\ (fst (invalidate key c) = false <-> getStale key c = None)
  /\ (forall now,
        get now key (snd (invalidate key c)) = (None, snd (invalidate key c)))
  /\ (getStale key c = None -> forall now, get now key c = (None, c))
  /\ (forall cfg (ops : list (Op T)) now,
        forallb (fun op => negb (sets_key key op)) ops = true ->
        fst (get now key (run ops (new cfg))) = None).
Proof.
  repeat split.
  - unfold invalidate, getStale, map_delete, map_has. simpl.
    destruct (map_get key (memoryCache c)) as [e|]; [eauto|discriminate].
  - unfold invalidate, getStale, map_delete, map_has. simpl.
    intros [e He]. now rewrite He.
  - unfold invalidate, getStale, map_delete, map_has. simpl.
    destruct (map_get key (memoryCache c)); [discriminate|reflexivity].
  - unfold invalidate, getStale, map_delete, map_has. simpl. now intros ->.
  - intros now. apply get_absent. unfold getStale, invalidate. simpl.
    apply map_get_remove_same.
  - intros Habs now. now apply get_absent.
  - intros cfg ops now Hops. rewrite get_absent; [reflexivity|].
    now apply run_absent.
Qed.

(** C8. After [invalidateAll()] on any store, whatever its entries and
    whether they are expired or not, [getStats().size] is 0 and [get(k)] and
    [getStale(k)] return [null] for every key at every time. *)
Theorem invalidateAll_clears (c : t T) :
  size (getStats (invalidateAll c)) = 0%nat
  /\ (forall now key, get now key (invalidateAll c) = (None, invalidateAll c))
  /\ (forall key, getStale key (invalidateAll c) = None).
Proof. repeat split. Qed.

End CacheContract.

(** ** The contract of the cache store over binary64 *)

Section Binary64Order.

Lemma SFcompare_antisym (x y : spec_float) :
  SFcompare y x = option_map CompOpp (SFcompare x y).
Proof.
  destruct x as [sx|sx| |sx mx ex], y as [sy|sy| |sy my ey]; simpl;
    try (destruct sx); try (destruct sy); try reflexivity.
  - rewrite (Z.compare_antisym ey ex).
    destruct (ey ?= ex)%Z; simpl; try reflexivity.
    now rewrite (Pos.compare_cont_antisym mx my Eq).
  - rewrite (Z.compare_antisym ey ex).
    destruct (ey ?= ex)%Z; simpl; try reflexivity.
    now rewrite (Pos.compare_cont_antisym mx my Eq).
Qed.

(** [x <= y] excludes [y < x], also at [NaN] and at the infinities. *)
Lemma leb_not_ltb (x y : float) :
  (x <=? y)%float = true -> (y <? x)%float = false.
Proof.
  rewrite leb_spec, ltb_spec. unfold SFleb, SFltb.
  rewrite (SFcompare_antisym (Prim2SF x) (Prim2SF y)).
  destruct (SFcompare (Prim2SF x) (Prim2SF y)) as [[| |]|]; simpl;
    intros H; try reflexivity; discriminate.
Qed.

End Binary64Order.

Section Binary64Contract.
Context {T : Type}.

Lemma getStale_set64 (c : Binary64.t T) (now : float) (key : string) (d : T)
    (ttlOverride : option float) :
  Binary64.getStale key (Binary64.set now key d ttlOverride c)
  = Some (Binary64.mkEntry d now
            (now + match ttlOverride with
                   | Some x => x
                   | None => Binary64.ttlSeconds (Binary64.config c)
                   end * 1000)%float).
Proof. unfold Binary64.getStale, Binary64.set. simpl. apply map_get_set_same. Qed.

(** A read after a write returns the entry exactly while the test
    [expiresAt < now] of line 23 is false; an entry whose [expiresAt] is
    [NaN] is returned at every time. *)
Lemma read_after_write (c : Binary64.t T) (now : float) (key : string) (v : T)
    (ttlOverride : option float) (now' : float) :
  let ttl := match ttlOverride with
             | Some x => x
             | None => Binary64.ttlSeconds (Binary64.config c)
             end in
  let c' := Binary64.set now key v ttlOverride c in
  let e := Binary64.mkEntry v now (now + ttl * 1000)%float in
  (Binary64.get now' key c' = (Some e, c')
   <-> (now + ttl * 1000 <? now')%float = false)
  /\ (fst (Binary64.get now' key c') = None
      <-> (now + ttl * 1000 <? now')%float = true).
Proof.
  intros ttl c' e. unfold Binary64.get.
  pose proof (getStale_set64 c now key v ttlOverride) as Hst.
  unfold Binary64.getStale in Hst. fold c' in Hst. rewrite Hst. simpl.
  fold ttl. destruct (now + ttl * 1000 <? now')%float; simpl.
  - split; split; try reflexivity; discriminate.
  - split; split; try reflexivity; discriminate.
Qed.

(** C6. After [set(k, v, ttlOverride?)] at the time [now] on any store, a
    [get(k)] at a time that is not after the expiry of the entry returns the
    entry just stored: its data is [v], its [fetchedAt] is [now] and its
    [expiresAt] is [fetchedAt + (ttlOverride ?? config.ttlSeconds) * 1000]
    as binary64 computes it, product and sum each rounded; the read leaves
    the store as it is. *)
Theorem set_then_get (c : Binary64.t T) (now : float) (key : string) (v : T)
    (ttlOverride : option float) (now' : float) :
  let ttl := match ttlOverride with
             | Some x => x
             | None => Binary64.ttlSeconds (Binary64.config c)
             end in
  let c' := Binary64.set now key v ttlOverride c in
  (now' <=? now + ttl * 1000)%float = true ->
  exists e,
    Binary64.get now' key c' = (Some e, c')
    /\ Binary64.data e = v
    /\ Binary64.fetchedAt e = now
    /\ Binary64.expiresAt e = (Binary64.fetchedAt e + ttl * 1000)%float.
Proof.
  intros ttl c' Hlive.
  exists (Binary64.mkEntry v now (now + ttl * 1000)%float). repeat split.
  apply (read_after_write c now key v ttlOverride now').
  now apply leb_not_ltb.
Qed.

End Binary64Contract.

(** With a TTL of [1 - 2^-24] seconds at the time 1700000000000 the exact
    sum is no binary64 number: the entry expires at 1700000001000. *)
Example expiry_is_rounded :
  (1700000000000 + short_second * 1000)%float = 1700000001000%float.
Proof. reflexivity. Qed.

(** C1, as stated, fails at the instant [now = expiresAt]: the entry of
    [kp_cache] expires at 180000 ms, and [get] at 180000 ms returns it. *)
Lemma get_at_expiry_instant :
  ~ (forall (c : CacheManager.t string) (now : number) (key : string)
            (e : CacheManager.CacheEntry string),
        CacheManager.getStale key c = Some e ->
        CacheManager.expiresAt e <= now ->
        fst (CacheManager.get now key c) = None).
Proof.
  intros H.
  specialize (H kp_cache 180000 "noaa_KP_INDEX"%string kp_entry eq_refl).
  assert (Hle : CacheManager.expiresAt kp_entry <= 180000) by apply Qle_refl.
  specialize (H Hle). vm_compute in H. discriminate.
Qed.

Lemma get_expiry_witness :
  map_get "noaa_KP_INDEX"%string (CacheManager.memoryCache kp_cache) = Some kp_entry
  /\ CacheManager.get 180001 "noaa_KP_INDEX"%string kp_cache
     = (None, CacheManager.with_map kp_cache [])
  /\ CacheManager.get 180000 "noaa_KP_INDEX"%string kp_cache
     = (Some kp_entry, kp_cache).
Proof.
  split; [reflexivity|].
  split.
  - apply (get_expiry kp_cache 180001 "noaa_KP_INDEX"%string kp_entry eq_refl).
    reflexivity.
  - apply (get_expiry kp_cache 180000 "noaa_KP_INDEX"%string kp_entry eq_refl).
    apply Qle_refl.
Defined.

Lemma set_then_get_witness :
  (1700000001000 <=? 1700000000000 + short_second * 1000)%float = true
  /\ exists e,
       Binary64.get 1700000001000%float "x"%string
         (Binary64.set 1700000000000%float "x"%string "d"%string
                       (Some short_second) (Binary64.new one_slot64))
       = (Some e,
          Binary64.set 1700000000000%float "x"%string "d"%string
                       (Some short_second) (Binary64.new one_slot64))
       /\ Binary64.data e = "d"%string
       /\ Binary64.fetchedAt e = 1700000000000%float
       /\ Binary64.expiresAt e
          = (Binary64.fetchedAt e + short_second * 1000)%float.
Proof.
  split; [reflexivity|].
  apply (set_then_get (Binary64.new one_slot64) 1700000000000%float "x"%string
                      "d"%string (Some short_second) 1700000001000%float).
  reflexivity.
Defined.

Lemma invalidate_then_get_witness :
  fst (CacheManager.invalidate "noaa_KP_INDEX"%string kp_cache) = true
  /\ fst (CacheManager.get 1 "noaa_KP_INDEX"%string
            (snd (CacheManager.invalidate "noaa_KP_INDEX"%string kp_cache))) = None
  /\ fst (CacheManager.get 1 "y"%string
            (run [OpSet 0 "x"%string "d"%string None; OpInvalidate "x"%string]
                 (CacheManager.new one_slot))) = None.
Proof.
  pose proof (invalidate_then_get kp_cache "noaa_KP_INDEX"%string)
    as (Htrue & _ & Hget & _ & _).
  pose proof (invalidate_then_get kp_cache "y"%string) as (_ & _ & _ & _ & Hrun).
  split; [apply Htrue; exists kp_entry; reflexivity|].
  split; [now rewrite Hget|].
  apply Hrun. reflexivity.
Defined.

(** ** Capacity and eviction *)

Section Capacity.
Context {T : Type}.
Import CacheManager.

(** Below the capacity, [set] removes nothing: it stores the entry. *)
Lemma set_below_capacity (c : t T) now key (d : T) ttlOverride :
  (Z.of_nat (map_size (memoryCache c)) < maxEntries (config c))%Z ->
  set now key d ttlOverride c
  = with_map c
      (map_set key
         (mkEntry d now
            (now + match ttlOverride with
                   | Some x => x
                   | None => ttlSeconds (config c)
                   end * 1000))
         (memoryCache c)).
Proof.
  intros Hlt. unfold set.
  apply Z.leb_gt in Hlt. now rewrite Hlt.
Qed.

(** At the capacity, [set] first removes the first oldest entry, and that
    entry alone, when its key is not the empty string; the key that is set
    may be in the store or not. *)
Lemma set_at_capacity_evicts (c : t T) now key (d : T) ttlOverride pre k e post :
  map_wf (memoryCache c) ->
  (maxEntries (config c) <= Z.of_nat (map_size (memoryCache c)))%Z ->
  first_oldest (memoryCache c) pre k e post ->
  k <> EmptyString ->
  set now key d ttlOverride c
  = with_map c
      (map_set key
         (mkEntry d now
            (now + match ttlOverride with
                   | Some x => x
                   | None => ttlSeconds (config c)
                   end * 1000))
         (pre ++ post))
  /\ S (map_size (pre ++ post)) = map_size (memoryCache c).
Proof.
  intros Hwf Hfull Hfo Hk. unfold set.
  apply Z.leb_le in Hfull. rewrite Hfull.
  rewrite (evictOldest_first_oldest c pre k e post Hwf Hfo Hk). simpl.
  split; [reflexivity|].
  destruct Hfo as (-> & _). unfold map_size.
  rewrite !length_app. simpl. lia.
Qed.

(** The invariant of a history with no [set] of the empty string: the size
    is within the capacity and no entry is stored under the empty string. *)
Definition within_capacity (c : t T) : Prop :=
  (Z.of_nat (map_size (memoryCache c)) <= maxEntries (config c))%Z
  /\ ~ In EmptyString (map_keys (memoryCache c)).

Lemma step_within_capacity (c : t T) (op : Op T) :
  (0 < maxEntries (config c))%Z ->
  sets_empty_key op = false ->
  within_capacity c -> within_capacity (step c op).
Proof.
  intros Hpos Hop [Hsize Hkeys]. unfold within_capacity.
  rewrite step_config.
  destruct op as [now k|now k d ttl|k|]; simpl in *.
  - destruct (get_store c now k) as [->| ->]; [now split|]. simpl. split.
    + pose proof (map_size_remove_le k (memoryCache c)). lia.
    + intros Hin. apply Hkeys. now apply (map_keys_remove k).
  - unfold sets_empty_key in Hop. simpl in Hop. apply String.eqb_neq in Hop.
    unfold set. simpl.
    destruct (maxEntries (config c) <=? Z.of_nat (map_size (memoryCache c)))%Z eqn:Hfull.
    + apply Z.leb_le in Hfull.
      assert (Hne : memoryCache c <> []).
      { intros Hnil. rewrite Hnil in Hfull. simpl in Hfull. lia. }
      pose proof (evictOldest_size_lt c Hne Hkeys) as Hlt.
      pose proof (map_size_set_le k
        (mkEntry d now (now + match ttl with
                              | Some x => x
                              | None => ttlSeconds (config c)
                              end * 1000))
        (memoryCache (evictOldest c))) as Hset.
      split.
      { apply Z.le_trans with (2 := Hsize). apply Nat2Z.inj_le.
        eapply Nat.le_trans; [exact Hset|exact Hlt]. }
      intros Hin. apply map_keys_set in Hin. destruct Hin as [Heq|Hin].
      * now apply Hop.
      * apply Hkeys. now apply evictOldest_keys.
    + apply Z.leb_gt in Hfull.
      pose proof (map_size_set_le k
        (mkEntry d now (now + match ttl with
                              | Some x => x
                              | None => ttlSeconds (config c)
                              end * 1000))
        (memoryCache c)) as Hset.
      split.
      { apply Z.le_trans with (Z.of_nat (S (map_size (memoryCache c)))).
        - apply Nat2Z.inj_le. exact Hset.
        - rewrite Nat2Z.inj_succ. lia. }
      intros Hin. apply map_keys_set in Hin. destruct Hin as [Heq|Hin].
      * now apply Hop.
      * now apply Hkeys.
  - split.
    + pose proof (map_size_remove_le k (memoryCache c)). lia.
    + intros Hin. apply Hkeys. now apply (map_keys_remove k).
  - split; [lia|tauto].
Qed.

Lemma run_within_capacity (ops : list (Op T)) (c : t T) :
  (0 < maxEntries (config c))%Z ->
  forallb (fun op => negb (sets_empty_key op)) ops = true ->
  within_capacity c -> within_capacity (run ops c).
Proof.
  revert c. induction ops as [|op ops IH]; intros c Hpos Hops Hinv; simpl in *.
  - exact Hinv.
  - apply andb_true_iff in Hops. destruct Hops as [Hop Hops].
    apply negb_true_iff in Hop.
    apply IH; [now rewrite step_config|exact Hops|].
    now apply step_within_capacity.
Qed.

(** The capacity bound for keys that are not empty: from the empty store
    with [maxEntries = M > 0], after every history of [get], [set],
    [invalidate] and [invalidateAll] calls in which no [set] names the empty
    string, [getStats().size <= M]. *)
Lemma capacity_bound_nonempty_keys (cfg : CacheConfig) (ops : list (Op T)) :
  (0 < maxEntries cfg)%Z ->
  forallb (fun op => negb (sets_empty_key op)) ops = true ->
  (Z.of_nat (size (getStats (run ops (new cfg)))) <= maxEntries cfg)%Z.
Proof.
  intros Hpos Hops.
  destruct (run_within_capacity ops (new cfg) Hpos Hops) as [Hsize _].
  - split; simpl; [lia|tauto].
  - rewrite run_config in Hsize. exact Hsize.
Qed.

End Capacity.

(** A full store of two entries, the second the older: [set] of a third key
    removes ["b"] and keeps ["a"]; [set] of ["a"] itself also removes ["b"]. *)
Lemma set_at_capacity_sample :
  map_keys (CacheManager.memoryCache
              (CacheManager.set 9 "c"%string "vc"%string None two_slots_cache))
  = ["a"; "c"]%string
  /\ map_keys (CacheManager.memoryCache
                 (CacheManager.set 9 "a"%string "va2"%string None two_slots_cache))
     = ["a"]%string.
Proof. split; reflexivity. Qed.

(** The scenarios of the test suite. Fifteen keys set one after the other
    into a cache of capacity ten leave the ten youngest, in their order; an
    entry with a TTL of 0.1 s is gone 150 ms later. *)
Lemma eviction_scenario :
  map_keys (CacheManager.memoryCache
              (run fifteen_sets (CacheManager.new (CacheManager.mkConfig 60 10))))
  = map key_n (seq 5 10).
Proof. vm_compute. reflexivity. Qed.

Lemma ttl_scenario :
  fst (CacheManager.get 150 "x"%string
         (CacheManager.set 0 "x"%string "d"%string None
            (CacheManager.new (CacheManager.mkConfig (1 # 10) 10))))
  = None.
Proof. reflexivity. Qed.

(** C2, at the input where the code departs from it. The store
    [empty_key_cache] is full ([size = 1 = maxEntries]) and its only, hence
    oldest, entry is stored under the empty string: [set('a', 'v1')] removes
    no entry, and the store holds two entries afterwards. *)
Theorem set_at_capacity_keeps_empty_key :
  (CacheManager.maxEntries (CacheManager.config empty_key_cache)
   <=? Z.of_nat (map_size (CacheManager.memoryCache empty_key_cache)))%Z = true
  /\ CacheManager.evictOldest empty_key_cache = empty_key_cache
  /\ CacheManager.set 1 "a"%string "v1"%string None empty_key_cache
     = CacheManager.mkCache
         [(EmptyString, CacheManager.mkEntry "v0"%string 0 60000);
          ("a"%string, CacheManager.mkEntry "v1"%string 1 (1 + 60 * 1000))]
         one_slot.
Proof. split; [|split]; reflexivity. Qed.

(** C5, at the input where the code departs from it. With [maxEntries = 1],
    [set('', 'v0')] and then [set('a', 'v1')] on the empty store leave
    [getStats().size = 2]. *)
Theorem capacity_exceeded_by_empty_key :
  let c := run [OpSet 0 EmptyString "v0"%string None;
                OpSet 1 "a"%string "v1"%string None]
               (CacheManager.new one_slot) in
  CacheManager.size (CacheManager.getStats c) = 2%nat
  /\ CacheManager.stats_maxEntries (CacheManager.getStats c) = 1%Z.
Proof. split; reflexivity. Qed.

(** ** The fetch orchestrator *)

Section ClientFacts.
Context {T : Type}.
Import CacheManager NoaaClient.
Variable env : Env T.
Implicit Types (endpoint : EndpointKey) (options : option Options) (w : World T).

(** The probe returns the answer of a hit, makes no request, and leaves the
    cache as [after_probe] says. *)
Lemma probe_run endpoint options w :
  probe env endpoint options w
  = (Returns (option_map (fun e => from_cache e None)
                         (probe_hit env endpoint options (cache w))),
     mkWorld (after_probe env endpoint options (cache w)) (requests w)).
Proof.
  unfold probe, probe_hit, after_probe.
  destruct (is_forced options); simpl.
  - unfold ret. now destruct w.
  - unfold bind, cache_get, ret.
    now destruct (fst (CacheManager.get (now_get env) (cache_key endpoint) (cache w))).
Qed.

(** A retrieval that completes: the payload is stored with the effective
    TTL and returned, after one request. *)
Lemma attempt_retrieved endpoint options w (d : T) :
  retrieved (reply_of env endpoint w) = Some d ->
  try_catch (attempt env endpoint options) (recover endpoint) w
  = (Returns (mkResponse true (Some d) None (Some (now_return env)) source_fetch),
     requested endpoint
       (CacheManager.set (now_set env) (cache_key endpoint) d
          (Some (effective_ttl endpoint options)) (cache w)) w).
Proof.
  unfold retrieved, reply_of, try_catch, attempt, bind, fetch, json.
  destruct (network env _ _) as [r|e]; [|discriminate].
  destruct (ok r); simpl; [|discriminate].
  destruct (body r) as [d'|e]; [|discriminate].
  intros [= ->]. reflexivity.
Qed.

(** A retrieval that fails: after one request the call answers from the
    entry of the key, whatever its age, with an advisory that is not empty,
    or, with no entry, reports a failure with a message; the cache is not
    written. *)
Lemma attempt_failed endpoint options w :
  retrieved (reply_of env endpoint w) = None ->
  exists advisory message : string,
    advisory <> EmptyString
    /\ try_catch (attempt env endpoint options) (recover endpoint) w
       = (Returns
            match CacheManager.getStale (cache_key endpoint) (cache w) with
            | Some e => from_cache e (Some advisory)
            | None => mkResponse false None (Some message) None source_fetch
            end,
          requested endpoint (cache w) w).
Proof.
  unfold retrieved, reply_of, try_catch, attempt, recover, bind, fetch, json,
    cache_getStale, ret, throw, requested.
  destruct (network env _ _) as [r|e].
  - destruct (ok r); simpl.
    + destruct (body r) as [d|e]; [discriminate|]. intros _. simpl.
      exists ("Fetch failed: " ++ message_of e ++ ", using stale cache")%string,
             (message_of e).
      split; [discriminate|].
      now destruct (CacheManager.getStale (cache_key endpoint) (cache w)).
    + intros _.
      exists ("API returned " ++ show (status r) ++ ", using stale cache")%string,
             ("HTTP " ++ show (status r) ++ ": " ++ statusText r)%string.
      split; [discriminate|].
      destruct (CacheManager.getStale (cache_key endpoint) (cache w)) eqn:E; simpl.
      * reflexivity.
      * now rewrite E.
  - intros _. simpl.
    exists ("Fetch failed: " ++ message_of e ++ ", using stale cache")%string,
           (message_of e).
    split; [discriminate|].
    now destruct (CacheManager.getStale (cache_key endpoint) (cache w)).
Qed.

(** The call is the probe, then, on a miss, the guarded attempt. *)
Lemma fetchEndpoint_run endpoint options w :
  fetchEndpoint env endpoint options w
  = match probe_hit env endpoint options (cache w) with
    | Some e =>
        (Returns (from_cache e None),
         mkWorld (after_probe env endpoint options (cache w)) (requests w))
    | None =>
        try_catch (attempt env endpoint options) (recover endpoint)
          (mkWorld (after_probe env endpoint options (cache w)) (requests w))
    end.
Proof.
  unfold fetchEndpoint, bind. rewrite probe_run.
  now destruct (probe_hit env endpoint options (cache w)).
Qed.

(** A live entry answers the probe, and the probe leaves it in place. *)
Lemma probe_hit_live endpoint options (c : CacheManager.t T) e :
  probe_hit env endpoint options c = Some e ->
  after_probe env endpoint options c = c
  /\ CacheManager.getStale (cache_key endpoint) c = Some e.
Proof.
  unfold probe_hit, after_probe.
  destruct (is_forced options); [discriminate|].
  unfold CacheManager.get, CacheManager.getStale.
  destruct (map_get (cache_key endpoint) (memoryCache c)) as [e'|]; [|discriminate].
  destruct (Qltb (expiresAt e') (now_get env)); [discriminate|].
  simpl. intros [= ->]. split; reflexivity.
Qed.

(** When the refresh is not forced and the probe misses, the cache has no
    entry for the key after the probe: an expired entry has been deleted. *)
Lemma after_probe_miss_unforced endpoint options (c : CacheManager.t T) :
  is_forced options = false ->
  probe_hit env endpoint options c = None ->
  CacheManager.getStale (cache_key endpoint)
                        (after_probe env endpoint options c) = None.
Proof.
  unfold probe_hit, after_probe. intros ->.
  unfold CacheManager.get, CacheManager.getStale.
  destruct (map_get (cache_key endpoint) (memoryCache c)) as [e'|] eqn:E.
  - destruct (Qltb (expiresAt e') (now_get env)); [|discriminate].
    intros _. simpl. apply map_get_remove_same.
  - intros _. exact E.
Qed.

End ClientFacts.

Section Orchestrator.
Context {T : Type}.
Import CacheManager NoaaClient.
Variable env : Env T.
Implicit Types (endpoint : EndpointKey) (options : option Options) (w : World T).

(** The stale fallback, on the cache as it is when the fallback runs: with
    an entry for the key there, expired or not, a failed retrieval is
    answered from it, with [source = 'cache'], its [fetchedAt] and an
    advisory that is not empty. *)
Lemma stale_fallback endpoint options w e :
  probe_hit env endpoint options (cache w) = None ->
  retrieved (reply_of env endpoint w) = None ->
  CacheManager.getStale (cache_key endpoint)
    (after_probe env endpoint options (cache w)) = Some e ->
  exists advisory,
    advisory <> EmptyString
    /\ fst (fetchEndpoint env endpoint options w)
       = Returns (mkResponse true (Some (data e)) (Some advisory)
                             (Some (fetchedAt e)) source_cache).
Proof.
  intros Hmiss Hfail Hstale. rewrite fetchEndpoint_run, Hmiss.
  destruct (attempt_failed env endpoint options
              (mkWorld (after_probe env endpoint options (cache w)) (requests w)) Hfail)
    as (advisory & message & Hne & ->).
  simpl. rewrite Hstale. now exists advisory.
Qed.

(** With no entry for the key when the fallback runs, a failed retrieval is
    reported: [success = false] and a message. *)
Lemma failure_without_entry endpoint options w :
  probe_hit env endpoint options (cache w) = None ->
  retrieved (reply_of env endpoint w) = None ->
  CacheManager.getStale (cache_key endpoint)
    (after_probe env endpoint options (cache w)) = None ->
  exists message,
    fst (fetchEndpoint env endpoint options w)
    = Returns (mkResponse false None (Some message) None source_fetch).
Proof.
  intros Hmiss Hfail Hstale. rewrite fetchEndpoint_run, Hmiss.
  destruct (attempt_failed env endpoint options
              (mkWorld (after_probe env endpoint options (cache w)) (requests w)) Hfail)
    as (advisory & message & Hne & ->).
  simpl. rewrite Hstale. now exists message.
Qed.

(** When the refresh is not forced, a failed retrieval is never answered
    from the cache: the probe has deleted the expired entry the fallback
    would have used. *)
Lemma unforced_failure_is_reported endpoint options w :
  is_forced options = false ->
  probe_hit env endpoint options (cache w) = None ->
  retrieved (reply_of env endpoint w) = None ->
  exists message,
    fst (fetchEndpoint env endpoint options w)
    = Returns (mkResponse false None (Some message) None source_fetch).
Proof.
  intros Hopt Hmiss Hfail.
  apply failure_without_entry; try assumption.
  now apply after_probe_miss_unforced.
Qed.

(** C3. Whatever the endpoint, the options, the state of the cache and the
    behaviour of the network, [fetchEndpoint] returns and does not throw;
    its result is a success with data or a failure with [success = false]
    and an error string; and the call makes no request or one request, to
    the URL of the endpoint. *)
Theorem fetchEndpoint_never_throws endpoint options w :
  exists (r : ApiResponse T) (w' : World T),
    fetchEndpoint env endpoint options w = (Returns r, w')
    /\ ((success r = true /\ exists d, resp_data r = Some d)
        \/ (success r = false /\ exists message, error r = Some message))
    /\ (requests w' = requests w
        \/ requests w' = requests w ++ [NOAA_ENDPOINTS endpoint]).
Proof.
  rewrite fetchEndpoint_run.
  destruct (probe_hit env endpoint options (cache w)) as [e|].
  - eexists _, _. split; [reflexivity|]. split; [left|left; reflexivity].
    simpl. eauto.
  - set (w1 := mkWorld (after_probe env endpoint options (cache w)) (requests w)).
    destruct (retrieved (reply_of env endpoint w1)) as [d|] eqn:Hreply.
    + rewrite (attempt_retrieved env endpoint options w1 d Hreply).
      eexists _, _. split; [reflexivity|]. split; [left|right; reflexivity].
      simpl. eauto.
    + destruct (attempt_failed env endpoint options w1 Hreply)
        as (advisory & message & _ & ->).
      eexists _, _. split; [reflexivity|]. split; [|right; reflexivity].
      destruct (CacheManager.getStale (cache_key endpoint) (cache w1)); simpl.
      * left. eauto.
      * right. eauto.
Qed.


(** C10. A call whose retrieval does not complete leaves the cache as the
    probe left it: that is the cache before the call, or, when the refresh
    is not forced and the entry of the key had expired, the cache without
    that entry; under every key the entry is the one before the call or, for
    the probed key alone, none. *)
Theorem failed_fetch_keeps_cache endpoint options w :
  retrieved (reply_of env endpoint w) = None ->
  let c' := cache (snd (fetchEndpoint env endpoint options w)) in
  c' = after_probe env endpoint options (cache w)
  /\ (c' = cache w
      \/ (is_forced options = false
          /\ (exists e, CacheManager.getStale (cache_key endpoint) (cache w) = Some e
                        /\ expiresAt e < now_get env)
          /\ c' = with_map (cache w)
                    (map_remove (cache_key endpoint) (memoryCache (cache w)))))
  /\ (forall key,
        CacheManager.getStale key c' = CacheManager.getStale key (cache w)
        \/ (key = cache_key endpoint /\ CacheManager.getStale key c' = None)).
Proof.
  intros Hfail c'.
  assert (Hc' : c' = after_probe env endpoint options (cache w)).
  { unfold c'. rewrite fetchEndpoint_run.
    destruct (probe_hit env endpoint options (cache w)); [reflexivity|].
    destruct (attempt_failed env endpoint options
                (mkWorld (after_probe env endpoint options (cache w)) (requests w)) Hfail)
      as (advisory & message & _ & ->).
    reflexivity. }
  split; [exact Hc'|]. rewrite Hc'. clear c' Hc'.
  unfold after_probe.
  destruct (is_forced options); [split; [now left|now left]|].
  unfold CacheManager.get.
  destruct (map_get (cache_key endpoint) (memoryCache (cache w))) as [e|] eqn:Hget;
    [|split; [now left|now left]].
  destruct (Qltb (expiresAt e) (now_get env)) eqn:Hexp;
    [|split; [now left|now left]].
  simpl. split.
  - right. split; [reflexivity|]. split; [|reflexivity].
    exists e. split; [exact Hget|]. now apply Qltb_lt.
  - intros key. unfold CacheManager.getStale. simpl.
    destruct (string_dec (cache_key endpoint) key) as [<-|Hne].
    + right. split; [reflexivity|]. apply map_get_remove_same.
    + left. now apply map_get_remove_other.
Qed.

End Orchestrator.

(** ** The orchestrator on the sample states *)

(** C4, at the input where the code departs from it. The cache holds an
    entry for the key of [KP_INDEX] that has expired; the refresh is not
    forced and the network answers 503. The probe deletes the entry, the
    fallback finds nothing, and the call reports a failure instead of
    answering from the entry. *)
Theorem expired_entry_is_not_served :
  CacheManager.getStale (NoaaClient.cache_key NoaaClient.KP_INDEX)
                        (NoaaClient.cache kp_world) = Some kp_entry
  /\ retrieved (reply_of outage NoaaClient.KP_INDEX kp_world) = None
  /\ NoaaClient.fetchEndpoint outage NoaaClient.KP_INDEX None kp_world
     = (NoaaClient.Returns
          (NoaaClient.mkResponse false None
             (Some "HTTP 503: Service Unavailable"%string) None
             NoaaClient.source_fetch),
        NoaaClient.mkWorld (CacheManager.with_map kp_cache [])
          [NoaaClient.NOAA_ENDPOINTS NoaaClient.KP_INDEX]).
Proof. split; [|split]; reflexivity. Qed.

(** The same outage with [forceRefresh: true]: no probe, and the fallback
    answers from the expired entry. *)
Lemma forced_refresh_serves_stale :
  NoaaClient.fetchEndpoint outage NoaaClient.KP_INDEX forced kp_world
  = (NoaaClient.Returns
       (NoaaClient.mkResponse true (Some "old"%string)
          (Some "API returned 503, using stale cache"%string) (Some 0)
          NoaaClient.source_cache),
     NoaaClient.mkWorld kp_cache [NoaaClient.NOAA_ENDPOINTS NoaaClient.KP_INDEX]).
Proof. reflexivity. Qed.


Lemma failed_fetch_keeps_cache_witness :
  retrieved (reply_of outage NoaaClient.KP_INDEX kp_world) = None
  /\ NoaaClient.cache
       (snd (NoaaClient.fetchEndpoint outage NoaaClient.KP_INDEX None kp_world))
     = after_probe outage NoaaClient.KP_INDEX None (NoaaClient.cache kp_world).
Proof.
  split; [reflexivity|].
  apply (failed_fetch_keeps_cache outage NoaaClient.KP_INDEX None kp_world eq_refl).
Defined.

(** * Further properties of the cache store *)

Section StoreFrames.
Context {T : Type}.
Import CacheManager.
Implicit Types (c : t T) (e : CacheEntry T) (key : string) (now : number).

(** X1. Below the capacity, [set] stores the entry, touches no other key and
    removes nothing: the size grows by one for a new key and stays for a key
    that is overwritten. *)
Theorem set_below_capacity_frame c now key (d : T) ttlOverride :
  (Z.of_nat (map_size (memoryCache c)) < maxEntries (config c))%Z ->
  let c' := set now key d ttlOverride c in
  (forall k, k <> key -> getStale k c' = getStale k c)
  /\ size (getStats c')
     = (if map_has key (memoryCache c) then size (getStats c)
        else S (size (getStats c)))
  /\ config c' = config c.
Proof.
  intros Hlt c'. unfold c'. rewrite (set_below_capacity c now key d ttlOverride Hlt).
  split; [|split; [|reflexivity]].
  - intros k Hk. unfold getStale. simpl. apply map_get_set_other. congruence.
  - simpl. apply map_size_set.
Qed.

(** X2. A [get] changes nothing but the key it reads: every other key keeps
    its entry, the size does not grow, and a read that returns an entry
    leaves the whole store, the [fetchedAt] of the entry included, as it
    was (a read gives no protection against eviction). *)
Theorem get_frame c now key :
  (forall k, k <> key -> getStale k (snd (get now key c)) = getStale k c)
  /\ (size (getStats (snd (get now key c))) <= size (getStats c))%nat
  /\ (forall e, fst (get now key c) = Some e ->
        snd (get now key c) = c /\ getStale key c = Some e).
Proof.
  split; [|split].
  - intros k Hk. destruct (get_store c now key) as [->| ->]; [reflexivity|].
    unfold getStale. simpl. apply map_get_remove_other. congruence.
  - destruct (get_store c now key) as [->| ->]; [lia|].
    simpl. apply map_size_remove_le.
  - intros e. unfold get, getStale.
    destruct (map_get key (memoryCache c)) as [e'|]; [|discriminate].
    destruct (Qltb (expiresAt e') now); [discriminate|].
    simpl. intros [= ->]. split; reflexivity.
Qed.

Lemma map_size_remove_wf (m : JsMap (CacheEntry T)) k :
  map_wf m -> map_has k m = true -> S (map_size (map_remove k m)) = map_size m.
Proof.
  unfold map_wf, map_keys, map_has, map_size, map_remove.
  induction m as [|[k' v'] rest IH]; simpl; [discriminate|].
  intros Hwf. inversion Hwf as [|? ? Hnin Hrest]; subst.
  destruct (String.eqb k' k) eqn:E; simpl.
  - intros _. apply String.eqb_eq in E. subst k'. f_equal.
    apply (f_equal (@List.length _)). apply forallb_filter_id.
    apply forallb_forall. intros x Hx. apply negb_true_iff. apply String.eqb_neq.
    intros Heq. apply Hnin. apply in_map_iff. exists x. tauto.
  - intros H. f_equal. now apply IH.
Qed.

Lemma map_remove_absent (m : JsMap (CacheEntry T)) k :
  map_has k m = false -> map_remove k m = m.
Proof.
  unfold map_has, map_remove.
  induction m as [|[k' v'] rest IH]; simpl; [reflexivity|].
  destruct (String.eqb k' k) eqn:E; [discriminate|]. simpl.
  intros H. f_equal. now apply IH.
Qed.

(** X3. [invalidate(k)] removes the entry of [k] and nothing else: every
    other key keeps its entry, the size drops by exactly one when [k] was
    stored, and a store without [k] is returned as it is, so that a second
    [invalidate(k)] returns [false]. *)
Theorem invalidate_frame c key :
  map_wf (memoryCache c) ->
  (forall k, k <> key -> getStale k (snd (invalidate key c)) = getStale k c)
  /\ (fst (invalidate key c) = true ->
      S (size (getStats (snd (invalidate key c)))) = size (getStats c))
  /\ (fst (invalidate key c) = false -> snd (invalidate key c) = c)
  /\ fst (invalidate key (snd (invalidate key c))) = false.
Proof.
  intros Hwf. unfold invalidate, map_delete. simpl. repeat split.
  - intros k Hk. unfold getStale. simpl. apply map_get_remove_other. congruence.
  - intros Hhas. now apply map_size_remove_wf.
  - intros Hhas. unfold with_map. rewrite (map_remove_absent _ _ Hhas). now destruct c.
  - unfold map_has. now rewrite map_get_remove_same.
Qed.

End StoreFrames.

Lemma set_below_capacity_frame_witness :
  (Z.of_nat (map_size (CacheManager.memoryCache kp_cache))
   < CacheManager.maxEntries (CacheManager.config kp_cache))%Z
  /\ CacheManager.getStale "noaa_KP_INDEX"%string
       (CacheManager.set 5 "x"%string "d"%string None kp_cache) = Some kp_entry
  /\ CacheManager.size
       (CacheManager.getStats (CacheManager.set 5 "x"%string "d"%string None kp_cache))
     = 2%nat.
Proof.
  assert (H : (Z.of_nat (map_size (CacheManager.memoryCache kp_cache))
               < CacheManager.maxEntries (CacheManager.config kp_cache))%Z)
    by reflexivity.
  split; [exact H|].
  destruct (set_below_capacity_frame kp_cache 5 "x"%string "d"%string None H)
    as (Hframe & Hsize & _).
  split; [apply Hframe; discriminate|exact Hsize].
Defined.

Lemma get_frame_witness :
  CacheManager.getStale "a"%string
    (snd (CacheManager.get 70000 "b"%string two_slots_cache))
  = CacheManager.getStale "a"%string two_slots_cache
  /\ snd (CacheManager.get 9 "b"%string two_slots_cache) = two_slots_cache.
Proof.
  destruct (get_frame two_slots_cache 70000 "b"%string) as (Hframe & _).
  destruct (get_frame two_slots_cache 9 "b"%string) as (_ & _ & Hhit).
  split; [apply Hframe; discriminate|].
  apply (Hhit (CacheManager.mkEntry "vb"%string 3 60003)). reflexivity.
Defined.

Lemma invalidate_frame_witness :
  map_wf (CacheManager.memoryCache two_slots_cache)
  /\ CacheManager.getStale "a"%string
       (snd (CacheManager.invalidate "b"%string two_slots_cache))
     = CacheManager.getStale "a"%string two_slots_cache
  /\ S (CacheManager.size
          (CacheManager.getStats
             (snd (CacheManager.invalidate "b"%string two_slots_cache))))
     = 2%nat.
Proof.
  assert (Hwf : map_wf (CacheManager.memoryCache two_slots_cache)).
  { unfold map_wf. simpl. repeat constructor; simpl; intuition discriminate. }
  split; [exact Hwf|].
  destruct (invalidate_frame two_slots_cache "b"%string Hwf) as (Hframe & Hsize & _).
  split; [apply Hframe; discriminate|apply Hsize; reflexivity].
Defined.

(** ** Eviction order and the expiry invariant *)

Section EvictionOrder.
Context {T : Type}.
Import CacheManager.
Implicit Types (c : t T) (e : CacheEntry T) (key : string) (now : number).
Implicit Types (m pre post : JsMap (CacheEntry T)).

Lemma map_has_remove m k key :
  map_has key (map_remove k m)
  = if String.eqb k key then false else map_has key m.
Proof.
  unfold map_has. destruct (String.eqb k key) eqn:E.
  - apply String.eqb_eq in E. subst. now rewrite map_get_remove_same.
  - apply String.eqb_neq in E. now rewrite map_get_remove_other.
Qed.

(** X4. At the capacity, with a first oldest entry whose key [k] is not the
    empty string, [set(key)] removes [k] (unless [k] is the key that is
    set), leaves every key other than [k] and [key] as it was, and ends one
    entry short of the capacity it started from when [key] was already
    stored under another key than [k]: an overwrite at the capacity shrinks
    the store. *)
Theorem set_at_capacity_frame c now key (d : T) ttlOverride pre k e post :
  map_wf (memoryCache c) ->
  (maxEntries (config c) <= Z.of_nat (map_size (memoryCache c)))%Z ->
  first_oldest (memoryCache c) pre k e post ->
  k <> EmptyString ->
  let c' := set now key d ttlOverride c in
  (k <> key -> getStale k c' = None)
  /\ (forall k', k' <> k -> k' <> key -> getStale k' c' = getStale k' c)
  /\ size (getStats c')
     = (if negb (String.eqb k key) && map_has key (memoryCache c)
        then pred (size (getStats c))
        else size (getStats c)).
Proof.
  intros Hwf Hfull Hfo Hk c'.
  destruct (set_at_capacity_evicts c now key d ttlOverride pre k e post
              Hwf Hfull Hfo Hk) as [Hset Hsize].
  assert (Hrem : pre ++ post = map_remove k (memoryCache c)).
  { destruct Hfo as (Heq & _). rewrite Heq in Hwf |- *.
    symmetry. now apply map_remove_middle. }
  unfold c'. rewrite Hset. unfold getStale. simpl. rewrite Hrem in *.
  split; [|split].
  - intros Hne. rewrite map_get_set_other by congruence. apply map_get_remove_same.
  - intros k' Hk' Hkey. rewrite map_get_set_other by congruence.
    apply map_get_remove_other. congruence.
  - rewrite map_size_set, map_has_remove.
    destruct (String.eqb k key); simpl; [lia|].
    destruct (map_has key (memoryCache c)); lia.
Qed.












Lemma expiry_ordered_remove m k : expiry_ordered m -> expiry_ordered (map_remove k m).
Proof.
  unfold expiry_ordered, map_remove. rewrite !Forall_forall.
  intros H x Hx. apply filter_In in Hx. now apply H.
Qed.

Lemma expiry_ordered_set m k (v : CacheEntry T) :
  fetchedAt v <= expiresAt v -> expiry_ordered m -> expiry_ordered (map_set k v m).
Proof.
  unfold expiry_ordered. intros Hv.
  induction m as [|[k' v'] rest IH]; simpl; intros Hm.
  - now constructor.
  - inversion Hm; subst. destruct (String.eqb k' k); constructor; auto.
Qed.

Lemma expiry_ordered_get m k e :
  expiry_ordered m -> map_get k m = Some e -> fetchedAt e <= expiresAt e.
Proof.
  unfold expiry_ordered.
  induction m as [|[k' v'] rest IH]; simpl; intros Hm; [discriminate|].
  inversion Hm; subst. destruct (String.eqb k' k).
  - now intros [= <-].
  - now apply IH.
Qed.

Lemma step_expiry_ordered c (op : Op T) :
  0 <= ttlSeconds (config c) ->
  override_nonneg op ->
  expiry_ordered (memoryCache c) -> expiry_ordered (memoryCache (step c op)).
Proof.
  intros Httl Hop Hinv. destruct op as [now k|now k d ttl|k|]; simpl.
  - destruct (get_store c now k) as [->| ->]; [exact Hinv|].
    simpl. now apply expiry_ordered_remove.
  - unfold set. simpl. apply expiry_ordered_set.
    + simpl. unfold override_nonneg in Hop. simpl in Hop.
      destruct ttl as [x|]; nra.
    + destruct (_ <=? _)%Z; [|exact Hinv].
      unfold evictOldest. destruct (truthy _); [|exact Hinv].
      destruct (fst (scan (memoryCache c))); [|exact Hinv].
      simpl. now apply expiry_ordered_remove.
  - now apply expiry_ordered_remove.
  - constructor.
Qed.

(** X6. With a default TTL and overrides that are not negative, every entry
    of the store, after every history from the empty store, has
    [expiresAt >= fetchedAt]. *)
Theorem expiry_not_before_fetch (cfg : CacheConfig) (ops : list (Op T)) key e :
  0 <= ttlSeconds cfg ->
  Forall override_nonneg ops ->
  getStale key (run ops (new cfg)) = Some e ->
  fetchedAt e <= expiresAt e.
Proof.
  intros Httl Hops Hget.
  apply (expiry_ordered_get (memoryCache (run ops (new cfg))) key); [|exact Hget].
  clear Hget.
  assert (Hgen : forall c, config c = cfg -> expiry_ordered (memoryCache c) ->
                           expiry_ordered (memoryCache (run ops c))).
  { induction Hops as [|op ops Hop _ IH]; intros c Hcfg Hinv; simpl; [exact Hinv|].
    apply IH.
    - now rewrite step_config.
    - apply step_expiry_ordered; [now rewrite Hcfg|exact Hop|exact Hinv]. }
  apply Hgen; [reflexivity|constructor].
Qed.

End EvictionOrder.

Lemma two_slots_wf : map_wf (CacheManager.memoryCache two_slots_cache).
Proof. unfold map_wf. simpl. repeat constructor; simpl; intuition discriminate. Qed.

Lemma two_slots_first_oldest :
  first_oldest (CacheManager.memoryCache two_slots_cache)
    [("a"%string, CacheManager.mkEntry "va"%string 5 60005)]
    "b"%string (CacheManager.mkEntry "vb"%string 3 60003) [].
Proof. repeat split; repeat constructor. Qed.

Lemma set_at_capacity_frame_witness :
  CacheManager.getStale "b"%string
    (CacheManager.set 9 "a"%string "va2"%string None two_slots_cache) = None
  /\ CacheManager.size
       (CacheManager.getStats
          (CacheManager.set 9 "a"%string "va2"%string None two_slots_cache))
     = 1%nat.
Proof.
  assert (Hfull : (CacheManager.maxEntries (CacheManager.config two_slots_cache)
                   <= Z.of_nat (map_size (CacheManager.memoryCache two_slots_cache)))%Z)
    by (simpl; lia).
  destruct (set_at_capacity_frame two_slots_cache 9 "a"%string "va2"%string None
              _ _ _ _ two_slots_wf Hfull two_slots_first_oldest)
    as (Hgone & _ & Hsize).
  - discriminate.
  - split; [apply Hgone; discriminate|exact Hsize].
Defined.


Lemma expiry_not_before_fetch_witness :
  CacheManager.fetchedAt (CacheManager.mkEntry "vq"%string 2 (2 + 5 * 1000))
  <= CacheManager.expiresAt (CacheManager.mkEntry "vq"%string 2 (2 + 5 * 1000)).
Proof.
  apply (expiry_not_before_fetch (CacheManager.mkConfig 60 2)
           (map insert_op three_inserts) "q"%string).
  - discriminate.
  - repeat constructor; simpl; discriminate.
  - reflexivity.
Defined.

(** * Further properties of the client *)

Section ClientComposition.
Context {T : Type}.
Import CacheManager NoaaClient.
Implicit Types (env : Env T) (endpoint : EndpointKey) (options : option Options).
Implicit Types (w : World T).

Lemma cache_key_nonempty endpoint : cache_key endpoint <> EmptyString.
Proof. destruct endpoint; discriminate. Qed.

Lemma cache_key_injective endpoint endpoint' :
  cache_key endpoint = cache_key endpoint' -> endpoint = endpoint'.
Proof. destruct endpoint, endpoint'; intros H; try reflexivity; discriminate H. Qed.

(** The cache after a call: the cache the probe leaves, with the payload
    stored when the probe misses and the retrieval completes. *)
Lemma fetchEndpoint_cache env endpoint options w :
  cache (snd (fetchEndpoint env endpoint options w))
  = match probe_hit env endpoint options (cache w),
          retrieved (reply_of env endpoint w) with
    | None, Some d =>
        CacheManager.set (now_set env) (cache_key endpoint) d
          (Some (effective_ttl endpoint options))
          (after_probe env endpoint options (cache w))
    | _, _ => after_probe env endpoint options (cache w)
    end.
Proof.
  rewrite fetchEndpoint_run.
  destruct (probe_hit env endpoint options (cache w)); [reflexivity|].
  set (w1 := mkWorld (after_probe env endpoint options (cache w)) (requests w)).
  change (reply_of env endpoint w) with (reply_of env endpoint w1).
  destruct (retrieved (reply_of env endpoint w1)) as [d|] eqn:Hreply.
  - now rewrite (attempt_retrieved env endpoint options w1 d Hreply).
  - destruct (attempt_failed env endpoint options w1 Hreply)
      as (advisory & message & _ & ->).
    reflexivity.
Qed.

(** A live entry answers the call: no request, no change. *)
Lemma hit_is_answered env endpoint options w e :
  probe_hit env endpoint options (cache w) = Some e ->
  fetchEndpoint env endpoint options w
  = (Returns (mkResponse true (Some (data e)) None (Some (fetchedAt e))
                         source_cache), w).
Proof.
  intros Hprobe. rewrite fetchEndpoint_run, Hprobe.
  destruct (probe_hit_live env endpoint options (cache w) e Hprobe) as [-> _].
  now destruct w.
Qed.

(** The call returns: it does not throw. *)
Lemma fetchEndpoint_returns env endpoint options w :
  exists r w', fetchEndpoint env endpoint options w = (Returns r, w').
Proof.
  rewrite fetchEndpoint_run.
  destruct (probe_hit env endpoint options (cache w)) as [e|]; [eauto|].
  set (w1 := mkWorld (after_probe env endpoint options (cache w)) (requests w)).
  destruct (retrieved (reply_of env endpoint w1)) as [d|] eqn:Hreply.
  - rewrite (attempt_retrieved env endpoint options w1 d Hreply). eauto.
  - destruct (attempt_failed env endpoint options w1 Hreply)
      as (advisory & message & _ & ->).
    eauto.
Qed.

(** After a call that stored a payload, a call that does not force the
    refresh and runs before the entry expires is a hit. *)
Lemma stored_then_hit env env' endpoint options options' w (d : T) :
  probe_hit env endpoint options (cache w) = None ->
  retrieved (reply_of env endpoint w) = Some d ->
  is_forced options' = false ->
  now_get env' <= now_set env + effective_ttl endpoint options * 1000 ->
  fetchEndpoint env' endpoint options'
    (snd (fetchEndpoint env endpoint options w))
  = (Returns (mkResponse true (Some d) None (Some (now_set env)) source_cache),
     snd (fetchEndpoint env endpoint options w)).
Proof.
  intros Hmiss Hreply Hopt Hlive.
  set (w1 := snd (fetchEndpoint env endpoint options w)).
  assert (Hcache : cache w1
                   = CacheManager.set (now_set env) (cache_key endpoint) d
                       (Some (effective_ttl endpoint options))
                       (after_probe env endpoint options (cache w))).
  { unfold w1. now rewrite fetchEndpoint_cache, Hmiss, Hreply. }
  apply (hit_is_answered env' endpoint options' w1
           (mkEntry d (now_set env)
              (now_set env + effective_ttl endpoint options * 1000))).
  unfold probe_hit. rewrite Hopt, Hcache.
  rewrite (get_live _ (now_get env') (cache_key endpoint)
             (mkEntry d (now_set env)
                (now_set env + effective_ttl endpoint options * 1000)));
    [reflexivity|apply getStale_set|exact Hlive].
Qed.


(** X8. After a call that retrieved a payload, a later call for the same
    endpoint that does not force the refresh and runs no later than
    [now_set + ttl * 1000] returns that payload from the cache, with the
    time of the first call as [cachedAt], makes no request and changes
    nothing. *)
Theorem second_call_is_cached env env' endpoint options options' w (d : T) :
  probe_hit env endpoint options (cache w) = None ->
  retrieved (reply_of env endpoint w) = Some d ->
  is_forced options' = false ->
  now_get env' <= now_set env + effective_ttl endpoint options * 1000 ->
  let w1 := snd (fetchEndpoint env endpoint options w) in
  fetchEndpoint env' endpoint options' w1
  = (Returns (mkResponse true (Some d) None (Some (now_set env)) source_cache), w1).
Proof.
  intros Hmiss Hreply Hopt Hlive w1.
  now apply stored_then_hit.
Qed.

(** X9. [clearCache()] forces the next call to the network: whatever the
    entries before, the call after it makes one request and answers with
    [source = 'fetch'], the payload when the retrieval completes and a
    failure when it does not. *)
Theorem clearCache_forces_fetch env endpoint options w :
  let w0 := snd (clearCache w) in
  exists r,
    fst (fetchEndpoint env endpoint options w0) = Returns r
    /\ requests (snd (fetchEndpoint env endpoint options w0))
       = requests w ++ [NOAA_ENDPOINTS endpoint]
    /\ source r = source_fetch
    /\ resp_data r = retrieved (reply_of env endpoint w)
    /\ success r = match retrieved (reply_of env endpoint w) with
                   | Some _ => true
                   | None => false
                   end.
Proof.
  intros w0.
  assert (Hafter : after_probe env endpoint options (cache w0) = cache w0).
  { unfold after_probe. now destruct (is_forced options). }
  assert (Hmiss : probe_hit env endpoint options (cache w0) = None).
  { unfold probe_hit. now destruct (is_forced options). }
  rewrite fetchEndpoint_run, Hmiss, Hafter.
  change (mkWorld (cache w0) (requests w0)) with w0.
  change (reply_of env endpoint w) with (reply_of env endpoint w0).
  destruct (retrieved (reply_of env endpoint w0)) as [d|] eqn:Hreply.
  - rewrite (attempt_retrieved env endpoint options w0 d Hreply).
    eexists. split; [reflexivity|]. simpl. repeat split.
  - destruct (attempt_failed env endpoint options w0 Hreply)
      as (advisory & message & _ & ->).
    eexists. split; [reflexivity|]. simpl. repeat split.
Qed.

End ClientComposition.

Section ClientInvariants.
Context {T : Type}.
Import CacheManager NoaaClient.
Implicit Types (env : Env T) (endpoint : EndpointKey) (options : option Options).
Implicit Types (w : World T).

Lemma after_probe_step env endpoint options (c : CacheManager.t T) :
  after_probe env endpoint options c = c
  \/ after_probe env endpoint options c
     = step c (OpGet (now_get env) (cache_key endpoint)).
Proof. unfold after_probe. destruct (is_forced options); [now left|now right]. Qed.

Lemma after_probe_within_capacity env endpoint options (c : CacheManager.t T) :
  (0 < maxEntries (config c))%Z ->
  within_capacity c ->
  within_capacity (after_probe env endpoint options c)
  /\ config (after_probe env endpoint options c) = config c.
Proof.
  intros Hpos Hinv.
  destruct (after_probe_step env endpoint options c) as [->| ->]; [now split|].
  split; [|apply step_config].
  now apply step_within_capacity.
Qed.

Lemma call_step_within_capacity w (call : Call T) :
  (0 < maxEntries (config (cache w)))%Z ->
  within_capacity (cache w) ->
  within_capacity (cache (call_step w call))
  /\ config (cache (call_step w call)) = config (cache w).
Proof.
  intros Hpos Hinv. destruct call as [env endpoint options| |]; simpl.
  - rewrite fetchEndpoint_cache.
    destruct (after_probe_within_capacity env endpoint options (cache w) Hpos Hinv)
      as [Hinv' Hcfg].
    destruct (probe_hit env endpoint options (cache w)); [now split|].
    destruct (retrieved (reply_of env endpoint w)) as [d|]; [|now split].
    change (CacheManager.set (now_set env) (cache_key endpoint) d
              (Some (effective_ttl endpoint options))
              (after_probe env endpoint options (cache w)))
      with (step (after_probe env endpoint options (cache w))
                 (OpSet (now_set env) (cache_key endpoint) d
                        (Some (effective_ttl endpoint options)))).
    split; [|now rewrite step_config].
    apply step_within_capacity; [now rewrite Hcfg| |exact Hinv'].
    unfold sets_empty_key. simpl. reflexivity.
  - now split.
  - split; [|reflexivity].
    now apply (step_within_capacity (cache w) OpInvalidateAll).
Qed.

(** X10. Through the client the capacity holds: after every history of
    [fetchEndpoint], [getCacheStats] and [clearCache] calls on a client
    built on an empty cache with [maxEntries = M > 0], whatever the network
    answers, [getCacheStats().size <= M]. *)
Theorem client_capacity_bound (cfg : CacheConfig) (calls : list (Call T)) :
  (0 < maxEntries cfg)%Z ->
  (Z.of_nat (size (getStats (cache (run_calls calls (new_client cfg)))))
   <= maxEntries cfg)%Z.
Proof.
  intros Hpos.
  assert (Hgen : forall w, config (cache w) = cfg -> within_capacity (cache w) ->
                   within_capacity (cache (run_calls calls w))
                   /\ config (cache (run_calls calls w)) = cfg).
  { induction calls as [|call calls IH]; intros w Hcfg Hinv; simpl; [now split|].
    destruct (call_step_within_capacity w call) as [Hinv' Hcfg'];
      [now rewrite Hcfg|exact Hinv|].
    apply IH; [congruence|exact Hinv']. }
  destruct (Hgen (new_client cfg)) as [[Hsize _] Hcfg].
  - reflexivity.
  - split; simpl; [lia|tauto].
  - rewrite Hcfg in Hsize. exact Hsize.
Qed.

(** X11. While the cache has room, a call for one endpoint leaves the entry
    of every other endpoint as it was, whatever the call does for its own. *)
Theorem other_endpoints_untouched env endpoint endpoint' options w :
  endpoint' <> endpoint ->
  (Z.of_nat (map_size (memoryCache (cache w))) < maxEntries (config (cache w)))%Z ->
  CacheManager.getStale (cache_key endpoint')
    (cache (snd (fetchEndpoint env endpoint options w)))
  = CacheManager.getStale (cache_key endpoint') (cache w).
Proof.
  intros Hne Hroom.
  assert (Hkey : cache_key endpoint <> cache_key endpoint').
  { intros H. apply Hne. symmetry. now apply cache_key_injective. }
  assert (Hprobe : CacheManager.getStale (cache_key endpoint')
                     (after_probe env endpoint options (cache w))
                   = CacheManager.getStale (cache_key endpoint') (cache w)
                   /\ (Z.of_nat (map_size (memoryCache
                          (after_probe env endpoint options (cache w))))
                       < maxEntries (config (after_probe env endpoint options (cache w))))%Z).
  { unfold after_probe. destruct (is_forced options); [now split|].
    destruct (get_store (cache w) (now_get env) (cache_key endpoint)) as [->| ->];
      [now split|].
    unfold CacheManager.getStale. simpl. split.
    - now apply map_get_remove_other.
    - pose proof (map_size_remove_le (cache_key endpoint) (memoryCache (cache w))).
      lia. }
  destruct Hprobe as [Hframe Hroom'].
  rewrite fetchEndpoint_cache.
  destruct (probe_hit env endpoint options (cache w)); [exact Hframe|].
  destruct (retrieved (reply_of env endpoint w)) as [d|]; [|exact Hframe].
  rewrite (set_below_capacity _ _ _ _ _ Hroom').
  unfold CacheManager.getStale in *. simpl.
  now rewrite map_get_set_other.
Qed.

End ClientInvariants.

Lemma second_call_is_cached_witness :
  NoaaClient.fetchEndpoint online NoaaClient.KP_INDEX None
    (snd (NoaaClient.fetchEndpoint online NoaaClient.KP_INDEX forced kp_world))
  = (NoaaClient.Returns
       (NoaaClient.mkResponse true (Some "new"%string) None (Some 200000)
          NoaaClient.source_cache),
     snd (NoaaClient.fetchEndpoint online NoaaClient.KP_INDEX forced kp_world)).
Proof.
  apply (second_call_is_cached online online NoaaClient.KP_INDEX forced None
           kp_world "new"%string eq_refl eq_refl eq_refl).
  discriminate.
Defined.

Lemma client_capacity_bound_witness :
  (Z.of_nat
     (CacheManager.size
        (CacheManager.getStats
           (NoaaClient.cache
              (run_calls
                 [CallFetch online NoaaClient.KP_INDEX None;
                  CallFetch online NoaaClient.ALERTS forced;
                  CallStats]
                 (new_client one_slot)))))
   <= 1)%Z.
Proof.
  apply (client_capacity_bound one_slot
           [CallFetch online NoaaClient.KP_INDEX None;
            CallFetch online NoaaClient.ALERTS forced;
            CallStats]).
  reflexivity.
Defined.

Lemma other_endpoints_untouched_witness :
  CacheManager.getStale (NoaaClient.cache_key NoaaClient.KP_INDEX)
    (NoaaClient.cache
       (snd (NoaaClient.fetchEndpoint online NoaaClient.ALERTS None kp_world)))
  = Some kp_entry.
Proof.
  rewrite (other_endpoints_untouched online NoaaClient.ALERTS NoaaClient.KP_INDEX
             None kp_world).
  - reflexivity.
  - discriminate.
  - reflexivity.
Defined.

(** * Properties of the interpretation functions *)

(** Case analysis on every comparison of the goal. *)
Ltac split_thresholds :=
  repeat match goal with
         | |- context [Qltb ?x ?t] =>
             let H := fresh "H" in
             destruct (Qltb x t) eqn:H;
             [apply Qltb_lt in H | apply Qltb_ge in H]
         end.

Section Scales.
Import Query.

(** X12. [interpretKp] is monotone: a larger Kp never gets a calmer level
    on the scale from Quiet to Extreme Storm (G5). *)
Theorem interpretKp_monotone (a b : number) :
  a <= b ->
  (index_of (kp_level (interpretKp (Num a))) kp_levels
   <= index_of (kp_level (interpretKp (Num b))) kp_levels)%nat.
Proof.
  intros Hab. unfold interpretKp, js_lt.
  split_thresholds; simpl; try lia; exfalso; lra.
Qed.

(** X13. [interpretKp] reports a storm, one of the levels G1 to G5, exactly
    when [kp < 5] is false: for a Kp of 5 or more, and also for [NaN], which
    [parseFloat] returns on a malformed row; the level always is one of the
    eight of the scale. *)
Theorem interpretKp_storm (kp : JsNumber) :
  (index_of (kp_level (interpretKp kp)) kp_levels < 8)%nat
  /\ ((3 <= index_of (kp_level (interpretKp kp)) kp_levels)%nat
      <-> js_lt kp (Num 5) = false)
  /\ (kp = NaN -> kp_level (interpretKp kp) = "Extreme Storm (G5)"%string).
Proof.
  destruct kp as [| |q|]; try (simpl; repeat split; intros; (lia || discriminate || reflexivity)).
  unfold interpretKp, js_lt.
  split_thresholds; simpl; repeat split; intros; try lia; try discriminate;
    try reflexivity; exfalso; lra.
Qed.

(** X14. [interpretSfi] is monotone on its scale from Very Low to Very
    High, and every answer, the one for [NaN] included, names at least
    three bands. *)
Theorem interpretSfi_monotone (a b : number) (x : JsNumber) :
  a <= b ->
  (index_of (sfi_level (interpretSfi (Num a))) sfi_levels
   <= index_of (sfi_level (interpretSfi (Num b))) sfi_levels)%nat
  /\ (3 <= List.length (bands (interpretSfi x)))%nat.
Proof.
  intros Hab. split.
  - unfold interpretSfi, js_lt.
    split_thresholds; simpl; try lia; exfalso; lra.
  - unfold interpretSfi.
    repeat match goal with
           | |- context [js_lt ?u ?t] => destruct (js_lt u t)
           end; simpl; lia.
Qed.

End Scales.

Lemma interpretKp_monotone_witness :
  (index_of (Query.kp_level (Query.interpretKp (Num 3%Q))) kp_levels
   <= index_of (Query.kp_level (Query.interpretKp (Num (11 # 2)%Q))) kp_levels)%nat.
Proof. apply (interpretKp_monotone 3 (11 # 2)). discriminate. Defined.

Lemma interpretSfi_monotone_witness :
  (index_of (Query.sfi_level (Query.interpretSfi (Num 65%Q))) sfi_levels
   <= index_of (Query.sfi_level (Query.interpretSfi (Num 130%Q))) sfi_levels)%nat
  /\ (3 <= List.length (Query.bands (Query.interpretSfi NaN)))%nat.
Proof. apply (interpretSfi_monotone 65 130 NaN). discriminate. Defined.

Section Flares.
Import Query.
Variable toFixed1 : JsNumber -> string.


End Flares.

(** X16. For a class string, the answer of [interpretXrayClass] depends on
    the first character alone, and not on its case; the empty string is
    Unknown. *)
Theorem xray_class_by_first_letter (a : ascii) (rest rest' : string) :
  Query.interpretXrayClass (String a rest)
  = Query.interpretXrayClass (String (Query.upper a) rest')
  /\ fst (fst (Query.interpretXrayClass EmptyString)) = "Unknown"%string.
Proof.
  split; [|reflexivity].
  destruct a as [[] [] [] [] [] [] [] []]; reflexivity.
Qed.

Section Ages.
Import Query.
Variable date_ms : string -> option Z.
Local Open Scope Z_scope.
Local Open Scope string_scope.

(** X17. [timeAgo] for a date [d] milliseconds back: it is 'just now' below
    one minute, dates in the future included; then the whole minutes up to
    one hour, the whole hours up to one day, and the whole days, each count
    with its unit in the singular exactly when the count is 1. *)
Theorem timeAgo_units (now : Z) (dateString : string) (t : Z) :
  date_ms dateString = Some t ->
  let d := now - t in
  (d < 60000 -> timeAgo date_ms now dateString = "just now")
  /\ (60000 <= d < 3600000 ->
      timeAgo date_ms now dateString
      = show_int (d / 60000) ++ " minute"
        ++ (if (120000 <=? d)%Z then "s" else "") ++ " ago")
  /\ (3600000 <= d < 86400000 ->
      timeAgo date_ms now dateString
      = show_int (d / 3600000) ++ " hour"
        ++ (if (7200000 <=? d)%Z then "s" else "") ++ " ago")
  /\ (86400000 <= d ->
      timeAgo date_ms now dateString
      = show_int (d / 86400000) ++ " day"
        ++ (if (172800000 <=? d)%Z then "s" else "") ++ " ago").
Proof.
  intros Hdate d. unfold timeAgo. rewrite Hdate. fold d. unfold timeAgo_of.
  assert (Hh : d / 60000 / 60 = d / 3600000).
  { rewrite Z.div_div by lia. reflexivity. }
  assert (Hd : d / 60000 / 60 / 24 = d / 86400000).
  { rewrite Hh. rewrite Z.div_div by lia. reflexivity. }
  rewrite Hd, Hh.
  repeat split; intros Hrange.
  - destruct (Z.ltb_spec (d / 60000) 1) as [_|H]; [reflexivity|].
    exfalso. Z.div_mod_to_equations. lia.
  - destruct (Z.ltb_spec (d / 60000) 1) as [H|_]; [exfalso; Z.div_mod_to_equations; lia|].
    destruct (Z.ltb_spec (d / 60000) 60) as [_|H]; [|exfalso; Z.div_mod_to_equations; lia].
    destruct (Z.ltb_spec 1 (d / 60000)), (Z.leb_spec 120000 d);
      try reflexivity; exfalso; Z.div_mod_to_equations; lia.
  - destruct (Z.ltb_spec (d / 60000) 1) as [H|_]; [exfalso; Z.div_mod_to_equations; lia|].
    destruct (Z.ltb_spec (d / 60000) 60) as [H|_]; [exfalso; Z.div_mod_to_equations; lia|].
    destruct (Z.ltb_spec (d / 3600000) 24) as [_|H]; [|exfalso; Z.div_mod_to_equations; lia].
    destruct (Z.ltb_spec 1 (d / 3600000)), (Z.leb_spec 7200000 d);
      try reflexivity; exfalso; Z.div_mod_to_equations; lia.
  - destruct (Z.ltb_spec (d / 60000) 1) as [H|_]; [exfalso; Z.div_mod_to_equations; lia|].
    destruct (Z.ltb_spec (d / 60000) 60) as [H|_]; [exfalso; Z.div_mod_to_equations; lia|].
    destruct (Z.ltb_spec (d / 3600000) 24) as [H|_]; [exfalso; Z.div_mod_to_equations; lia|].
    destruct (Z.ltb_spec 1 (d / 86400000)), (Z.leb_spec 172800000 d);
      try reflexivity; exfalso; Z.div_mod_to_equations; lia.
Qed.

End Ages.

Lemma timeAgo_units_witness :
  Query.timeAgo (fun _ => Some 0%Z) 300000 "2024-01-01"%string
  = "5 minutes ago"%string.
Proof.
  apply (timeAgo_units (fun _ => Some 0%Z) 300000 "2024-01-01"%string 0%Z eq_refl).
  simpl. lia.
Defined.

(** * Properties of [queryData] *)

Lemma insertion_sort_permutes cmp (l : list JsObject) :
  Permutation (insertion_sort cmp l) l.
Proof.
  assert (Hins : forall x l', Permutation (insert_by cmp x l') (x :: l')).
  { intros x l'. induction l' as [|y rest IH]; simpl; [reflexivity|].
    destruct (0 <? cmp x y)%Z; [|reflexivity].
    rewrite IH. apply perm_swap. }
  induction l as [|x rest IH]; simpl; [reflexivity|].
  rewrite Hins. now constructor.
Qed.

Section QueryFacts.
Import QueryData.
Variable date_of : JsValue -> JsNumber.
Variable less_than : JsValue -> JsValue -> bool.
Variable sort : (JsObject -> JsObject -> Z) -> list JsObject -> list JsObject.
Hypothesis sort_permutes : forall cmp l, Permutation (sort cmp l) l.


Lemma filter_twice {A} (f g : A -> bool) (l : list A) :
  List.filter g (List.filter f l) = List.filter (fun x => f x && g x) l.
Proof.
  induction l as [|x rest IH]; simpl; [reflexivity|].
  destruct (f x); simpl; [|exact IH].
  destruct (g x); now rewrite IH.
Qed.

(** The records before the sort: those that pass, in the order of [data]. *)
Lemma queryData_kept (data : list JsObject) (options : QueryOptions) :
  match filter options with
  | Some entries =>
      List.filter (matches entries)
        (if given (startTime options) || given (endTime options)
         then List.filter (in_time_range date_of options) data else data)
  | None =>
      if given (startTime options) || given (endTime options)
      then List.filter (in_time_range date_of options) data else data
  end
  = List.filter (passes date_of options) data.
Proof.
  unfold QueryData.passes.
  destruct (filter options) as [entries|];
    destruct (given (startTime options) || given (endTime options)).
  - apply filter_twice.
  - apply filter_ext. reflexivity.
  - apply filter_ext. intros a. now rewrite andb_true_r.
  - symmetry. apply forallb_filter_id. apply forallb_forall. reflexivity.
Qed.

Lemma in_prefix {A} (k : nat) (l : list A) (x : A) : In x (firstn k l) -> In x l.
Proof.
  intros Hin. rewrite <- (firstn_skipn k l). apply in_or_app. now left.
Qed.

Lemma slice_to_prefix (n : JsNumber) (l : list JsObject) :
  exists k, slice_to n l = firstn k l.
Proof.
  destruct n as [| |q|]; simpl.
  - now exists 0%nat.
  - now exists 0%nat.
  - now exists (Z.to_nat (Qfloor q)).
  - exists (List.length l). now rewrite firstn_all.
Qed.

(** The result is a prefix of an arrangement of the records that pass; the
    arrangement is their order in [data] when no sort is asked for, and the
    prefix is the whole when no limit applies. *)
Lemma queryData_shape (data : list JsObject) (options : QueryOptions) :
  exists arranged k,
    Permutation arranged (List.filter (passes date_of options) data)
    /\ (given (sortBy options) = false -> arranged = List.filter (passes date_of options) data)
    /\ queryData date_of less_than sort data options = firstn k arranged
    /\ (limits options = false -> queryData date_of less_than sort data options = arranged)
    /\ (forall q, limit options = Some (Num q) -> 0 < q ->
        queryData date_of less_than sort data options = firstn (Z.to_nat (Qfloor q)) arranged).
Proof.
  unfold QueryData.queryData. rewrite queryData_kept.
  set (kept := List.filter (passes date_of options) data).
  set (arranged :=
         match sortBy options with
         | Some sortKey =>
             if given (Some sortKey)
             then sort (compare_by less_than sortKey
                          match sortOrder options with
                          | Some asc => 1%Z
                          | _ => (-1)%Z
                          end) kept
             else kept
         | None => kept
         end).
  assert (Hperm : Permutation arranged kept).
  { unfold arranged. destruct (sortBy options) as [sortKey|]; [|reflexivity].
    destruct (given (Some sortKey)); [apply sort_permutes|reflexivity]. }
  assert (Hsame : given (sortBy options) = false -> arranged = kept).
  { unfold arranged. destruct (sortBy options) as [sortKey|]; [|reflexivity].
    now intros ->. }
  unfold limits.
  destruct (limit options) as [n|] eqn:Hlimit.
  - destruct (js_truthy (VNumber n) && js_gt n (Num 0)) eqn:Hpos.
    + destruct (slice_to_prefix n arranged) as [k Hk].
      exists arranged, k. repeat split; try assumption; try discriminate.
      intros q [= ->] _. reflexivity.
    + exists arranged, (List.length arranged). repeat split; try assumption.
      * now rewrite firstn_all.
      * intros q [= ->] Hq. exfalso.
        simpl in Hpos. apply andb_false_iff in Hpos. destruct Hpos as [Hz|Hgt].
        -- apply negb_false_iff in Hz. apply Qeq_bool_iff in Hz. lra.
        -- apply Qltb_ge in Hgt. lra.
  - exists arranged, (List.length arranged). repeat split; try assumption.
    + now rewrite firstn_all.
    + discriminate.
Qed.

(** The records of the result are records of [data] that pass. *)
Lemma queryData_keeps (data : list JsObject) (options : QueryOptions) item :
  In item (queryData date_of less_than sort data options) ->
  In item data /\ passes date_of options item = true.
Proof.
  destruct (queryData_shape data options) as (arranged & k & Hperm & _ & Hk & _).
  intros Hin. rewrite Hk in Hin. apply in_prefix in Hin.
  apply (Permutation_in _ Hperm) in Hin. apply filter_In in Hin. exact Hin.
Qed.

Lemma queryData_length (data : list JsObject) (options : QueryOptions) :
  (List.length (queryData date_of less_than sort data options)
   <= List.length data)%nat.
Proof.
  destruct (queryData_shape data options) as (arranged & k & Hperm & _ & Hk & _).
  rewrite Hk, length_firstn. apply Permutation_length in Hperm.
  pose proof (filter_length_le (passes date_of options) data). lia.
Qed.

(** X18. [queryData] returns records of [data] only, each one passing the
    time range and the custom filter, and no more of them than [data] has;
    with a limit [n > 0] it returns at most the whole part of [n] records. *)
Theorem queryData_sound (data : list JsObject) (options : QueryOptions) :
  (forall item, In item (queryData date_of less_than sort data options) ->
                In item data /\ passes date_of options item = true)
  /\ (List.length (queryData date_of less_than sort data options) <= List.length data)%nat
  /\ (forall q, limit options = Some (Num q) -> 0 < q ->
      (List.length (queryData date_of less_than sort data options) <= Z.to_nat (Qfloor q))%nat).
Proof.
  destruct (queryData_shape data options)
    as (arranged & k & Hperm & _ & Hk & _ & Hcut).
  split; [|split].
  - intros item Hin. rewrite Hk in Hin. apply in_prefix in Hin.
    apply (Permutation_in _ Hperm) in Hin. apply filter_In in Hin. exact Hin.
  - rewrite Hk, length_firstn. apply Permutation_length in Hperm.
    pose proof (filter_length_le (passes date_of options) data). lia.
  - intros q Hq Hpos. rewrite (Hcut q Hq Hpos), length_firstn. lia.
Qed.

(** X19. When no limit applies ([limit] missing, zero, negative or [NaN])
    [queryData] returns every record that passes the filters, each as often
    as [data] has it; and when no sort is asked for, the records come in the
    order of [data]. *)
Theorem queryData_complete (data : list JsObject) (options : QueryOptions) :
  (limits options = false ->
   Permutation (queryData date_of less_than sort data options) (List.filter (passes date_of options) data))
  /\ (given (sortBy options) = false ->
      exists k, queryData date_of less_than sort data options = firstn k (List.filter (passes date_of options) data))
  /\ (limits options = false -> given (sortBy options) = false ->
      queryData date_of less_than sort data options = List.filter (passes date_of options) data).
Proof.
  destruct (queryData_shape data options)
    as (arranged & k & Hperm & Hsame & Hk & Hall & _).
  split; [|split].
  - intros Hlim. now rewrite (Hall Hlim).
  - intros Hsort. exists k. now rewrite Hk, (Hsame Hsort).
  - intros Hlim Hsort. now rewrite (Hall Hlim), (Hsame Hsort).
Qed.

End QueryFacts.

Lemma queryData_sound_witness :
  (List.length (QueryData.queryData no_date never_less insertion_sort
                  three_records five_only) <= 1)%nat.
Proof.
  apply (proj2 (proj2 (queryData_sound no_date never_less insertion_sort
                         insertion_sort_permutes three_records five_only))
               (3 # 2) eq_refl).
  reflexivity.
Defined.

Lemma queryData_complete_witness :
  QueryData.queryData no_date never_less insertion_sort three_records kp_five
  = [record "t2" 5; record "t3" 5].
Proof.
  rewrite (proj2 (proj2 (queryData_complete no_date never_less insertion_sort
                           insertion_sort_permutes three_records kp_five))
                 eq_refl eq_refl).
  reflexivity.
Defined.

(** * Properties of [getXrayFlux] *)

Section XrayQueries.
Import CacheManager NoaaClient QueryData.
Variable date_of : JsValue -> JsNumber.
Variable less_than : JsValue -> JsValue -> bool.
Variable sort : (JsObject -> JsObject -> Z) -> list JsObject -> list JsObject.
Hypothesis sort_permutes : forall cmp l, Permutation (sort cmp l) l.
Implicit Types (env : Env (list JsObject)) (w : World (list JsObject)).

(** X20. [getXrayFlux] answers as [fetchEndpoint('XRAY_FLUX')] does, with
    the same success, error, source and time, and leaves the cache and the
    requests as that call leaves them: the cache keeps the whole payload.
    A failure is passed on as it is; the records of a success are records
    of the payload, each passing the filters of the options. *)
Theorem getXrayFlux_answers env (options : option QueryOptions) w r0 w' :
  fetchEndpoint env XRAY_FLUX None w = (Returns r0, w') ->
  exists r,
    getXrayFlux date_of less_than sort env options w = (Returns r, w')
    /\ success r = success r0 /\ error r = error r0
    /\ source r = source r0 /\ cachedAt r = cachedAt r0
    /\ (success r0 = false -> r = r0)
    /\ (forall items, resp_data r = Some items ->
        exists data, resp_data r0 = Some data
                     /\ items = (if success r0 then queried date_of less_than sort options data else data)
                     /\ incl items data).
Proof.
  intros Hfetch. unfold getXrayFlux, bind. rewrite Hfetch.
  destruct r0 as [ok0 data0 err0 at0 src0]. simpl.
  assert (Hsame : forall items : list JsObject,
            data0 = Some items ->
            exists data, data0 = Some data /\ items = data /\ incl items data).
  { intros items ->. exists items. repeat split. apply incl_refl. }
  destruct ok0.
  - destruct data0 as [data|].
    + destruct options as [o|]; unfold ret; eexists; (split; [reflexivity|]);
        simpl; repeat split; try discriminate.
      * intros items [= <-]. exists data. repeat split.
        intros item Hin.
        now apply (queryData_keeps date_of less_than sort sort_permutes data o).
      * intros items [= <-]. exists data. repeat split. apply incl_refl.
    + unfold ret. eexists. split; [reflexivity|]. simpl.
      repeat split; discriminate.
  - unfold ret. eexists. split; [reflexivity|]. simpl.
    repeat split. exact Hsame.
Qed.

(** X21. After a [getXrayFlux] that retrieved a payload, a second one, with
    options of its own, that runs within the 60 s of the TTL is answered
    from the cache without a request: its options are applied to the whole
    payload, not to what the first call returned. *)
Theorem getXrayFlux_again env env' (options options' : option QueryOptions) w
    (payload : list JsObject) :
  probe_hit env XRAY_FLUX None (cache w) = None ->
  retrieved (reply_of env XRAY_FLUX w) = Some payload ->
  now_get env' <= now_set env + 60 * 1000 ->
  let w1 := snd (getXrayFlux date_of less_than sort env options w) in
  getXrayFlux date_of less_than sort env' options' w1
  = (Returns (mkResponse true (Some (queried date_of less_than sort options' payload))
                         None (Some (now_set env)) source_cache), w1).
Proof.
  intros Hmiss Hreply Hlive w1.
  assert (Hw1 : w1 = snd (fetchEndpoint env XRAY_FLUX None w)).
  { unfold w1, getXrayFlux, bind.
    destruct (fetchEndpoint_returns env XRAY_FLUX None w) as (r0 & w' & ->).
    destruct (success r0), (resp_data r0), options; reflexivity. }
  pose proof (stored_then_hit env env' XRAY_FLUX None None w payload
                Hmiss Hreply eq_refl Hlive) as Hsecond.
  rewrite <- Hw1 in Hsecond.
  unfold getXrayFlux, bind. rewrite Hsecond. simpl.
  now destruct options'.
Qed.

End XrayQueries.

Lemma getXrayFlux_answers_witness :
  exists r,
    QueryData.getXrayFlux no_date never_less insertion_sort records_online
      (Some kp_five) (new_client CacheManager.DEFAULT_CACHE_CONFIG)
    = (NoaaClient.Returns r,
       snd (NoaaClient.fetchEndpoint records_online NoaaClient.XRAY_FLUX None
              (new_client CacheManager.DEFAULT_CACHE_CONFIG)))
    /\ NoaaClient.success r = true
    /\ NoaaClient.source r = NoaaClient.source_fetch.
Proof.
  destruct (getXrayFlux_answers no_date never_less insertion_sort
              insertion_sort_permutes records_online (Some kp_five)
              (new_client CacheManager.DEFAULT_CACHE_CONFIG)
              (NoaaClient.mkResponse true (Some three_records) None (Some 1000)
                 NoaaClient.source_fetch)
              (snd (NoaaClient.fetchEndpoint records_online NoaaClient.XRAY_FLUX None
                      (new_client CacheManager.DEFAULT_CACHE_CONFIG)))
              eq_refl)
    as (r & Hget & Hok & _ & Hsrc & _).
  exists r. split; [exact Hget|]. split; [exact Hok|exact Hsrc].
Defined.

Lemma getXrayFlux_again_witness :
  QueryData.getXrayFlux no_date never_less insertion_sort records_online
    (Some five_only)
    (snd (QueryData.getXrayFlux no_date never_less insertion_sort records_online
            (Some kp_five) (new_client CacheManager.DEFAULT_CACHE_CONFIG)))
  = (NoaaClient.Returns
       (NoaaClient.mkResponse true (Some [record "t2" 5]) None (Some 1000)
          NoaaClient.source_cache),
     snd (QueryData.getXrayFlux no_date never_less insertion_sort records_online
            (Some kp_five) (new_client CacheManager.DEFAULT_CACHE_CONFIG))).
Proof.
  rewrite (getXrayFlux_again no_date never_less insertion_sort records_online
             records_online (Some kp_five) (Some five_only)
             (new_client CacheManager.DEFAULT_CACHE_CONFIG) three_records
             eq_refl eq_refl).
  - reflexivity.
  - discriminate.
Defined.

(** * Properties of [getKpIndex] *)

Section KpTable.
Import CacheManager NoaaClient QueryData.
Variable date_of : JsValue -> JsNumber.
Variable less_than : JsValue -> JsValue -> bool.
Variable sort : (JsObject -> JsObject -> Z) -> list JsObject -> list JsObject.
Hypothesis sort_permutes : forall cmp l, Permutation (sort cmp l) l.
Variable parseFloat : JsValue -> JsNumber.
Variable parseInt10 : JsValue -> JsNumber.
Variable inherited : JsObject.
Implicit Types (env : Env (list JsObject)) (w : World (list JsObject)).

(** X22. [getKpIndex] never returns the header row: on a success its
    records are built from the rows after the first, one record for each
    such row and in their order when there are no options, and with options
    no record that is not built from such a row; a failure is passed on
    without data; and the cache and the requests are those of
    [fetchEndpoint('KP_INDEX')]. *)
Theorem getKpIndex_rows env (options : option QueryOptions) w r0 w' :
  fetchEndpoint env KP_INDEX None w = (Returns r0, w') ->
  exists r,
    getKpIndex date_of less_than sort parseFloat parseInt10 inherited env options w
    = (Returns r, w')
    /\ success r = success r0 /\ error r = error r0 /\ source r = source r0
    /\ (success r0 = false -> resp_data r = None)
    /\ (forall table, success r0 = true -> resp_data r0 = Some table ->
        exists records,
          resp_data r = Some records
          /\ (options = None ->
              records = map (kp_record parseFloat parseInt10 inherited) (tl table))
          /\ (forall item, In item records ->
              exists row, In row (tl table)
                          /\ item = kp_record parseFloat parseInt10 inherited row)
          /\ (List.length records <= List.length table - 1)%nat).
Proof.
  intros Hfetch. unfold getKpIndex, bind. rewrite Hfetch.
  destruct r0 as [ok0 data0 err0 at0 src0]. simpl.
  destruct ok0.
  - destruct data0 as [table|].
    + unfold ret. eexists. split; [reflexivity|]. simpl.
      repeat split; try discriminate.
      intros table' _ [= <-].
      set (kpData := map (kp_record parseFloat parseInt10 inherited) (tl table)).
      assert (Hlen : (List.length kpData <= List.length table - 1)%nat).
      { unfold kpData. rewrite length_map. destruct table; simpl; lia. }
      destruct options as [o|].
      * eexists. split; [reflexivity|].
        pose proof (queryData_length date_of less_than sort sort_permutes kpData o)
          as Hle.
        repeat split; try discriminate; [|lia].
        intros item Hin.
        apply (queryData_keeps date_of less_than sort sort_permutes) in Hin.
        destruct Hin as [Hin _].
        unfold kpData in Hin. apply in_map_iff in Hin.
        destruct Hin as (row & <- & Hrow). now exists row.
      * eexists. split; [reflexivity|].
        repeat split; [|exact Hlen].
        intros item Hin. apply in_map_iff in Hin.
        destruct Hin as (row & <- & Hrow). now exists row.
    + unfold ret. eexists. split; [reflexivity|]. simpl.
      repeat split; discriminate.
  - unfold ret. eexists. split; [reflexivity|]. simpl.
    repeat split; discriminate.
Qed.

End KpTable.

Lemma getKpIndex_rows_witness :
  exists r,
    QueryData.getKpIndex no_date never_less insertion_sort no_number no_number
      no_property table_online None (new_client CacheManager.DEFAULT_CACHE_CONFIG)
    = (NoaaClient.Returns r,
       snd (NoaaClient.fetchEndpoint table_online NoaaClient.KP_INDEX None
              (new_client CacheManager.DEFAULT_CACHE_CONFIG)))
    /\ NoaaClient.success r = true.
Proof.
  destruct (getKpIndex_rows no_date never_less insertion_sort
              insertion_sort_permutes no_number no_number no_property
              table_online None (new_client CacheManager.DEFAULT_CACHE_CONFIG)
              (NoaaClient.mkResponse true (Some kp_table) None (Some 1000)
                 NoaaClient.source_fetch)
              (snd (NoaaClient.fetchEndpoint table_online NoaaClient.KP_INDEX None
                      (new_client CacheManager.DEFAULT_CACHE_CONFIG)))
              eq_refl)
    as (r & Hget & Hok & _).
  exists r. split; [exact Hget|exact Hok].
Defined.

(** * Properties of the assessment of [analyze_propagation] *)

Section Assessment.
Import Query Tools.
Variable toFixed1 : JsNumber -> string.

(** The first letter of the class of a flux, by the thresholds. *)
Lemma class_letter_of_flux (f : JsNumber) :
  let cls := class (interpretXrayFlux toFixed1 (inl f)) in
  startsWith "X" cls = negb (js_lt f (Num e_4))
  /\ startsWith "M" cls = negb (js_lt f (Num e_5)) && js_lt f (Num e_4)
  /\ startsWith "C" cls = negb (js_lt f (Num e_6)) && js_lt f (Num e_5).
Proof.
  destruct f as [| |q|]; try (repeat split; reflexivity).
  unfold interpretXrayFlux, fluxToClass, js_lt.
  split_thresholds; simpl; repeat split; try reflexivity;
    exfalso; unfold e_7, e_6, e_5, e_4 in *; lra.
Qed.

Lemma after_kp_poor kp :
  after_kp kp excellent = poor
  <-> exists k, kp = Some k /\ js_ge k (Num 5) = true.
Proof.
  unfold after_kp. destruct kp as [k|].
  - destruct (js_ge k (Num 5)) eqn:E5.
    + split; [intros _; now exists k|reflexivity].
    + split.
      * destruct (js_ge k (Num 4)); [discriminate|].
        destruct (js_ge k (Num 2)); discriminate.
      * intros (k' & [= <-] & Hge). congruence.
  - split; [discriminate|]. intros (k' & Hk & _). discriminate.
Qed.

Lemma after_xray_poor flux c :
  after_xray toFixed1 flux c = poor
  <-> c = poor \/ exists f, flux = Some f /\ js_lt f (Num e_4) = false.
Proof.
  unfold after_xray. destruct flux as [f|].
  - destruct (class_letter_of_flux f) as (-> & -> & ->).
    destruct (js_lt f (Num e_4)) eqn:E4; simpl.
    + split.
      * intros H. left.
        destruct (js_lt f (Num e_5)), (js_lt f (Num e_6)), c;
          simpl in H; congruence.
      * intros [->|(f' & [= <-] & Hlt)]; [|congruence].
        now destruct (js_lt f (Num e_5)), (js_lt f (Num e_6)).
    + split; [intros _; right; now exists f|reflexivity].
  - split; [now left|]. intros [H|(f' & Hf & _)]; [exact H|discriminate].
Qed.

Lemma after_solar_wind_poor bz c : after_solar_wind bz c = poor <-> c = poor.
Proof.
  unfold after_solar_wind. destruct bz as [b|]; [|tauto].
  destruct (js_lt b (Num (-10))); [|tauto].
  destruct c; simpl; split; congruence.
Qed.

(** X23. The condition is poor exactly when the latest Kp is 5 or more or
    the latest flux is not below [1e-4] (an X-class flare, or a flux that is
    [NaN]); the solar wind never makes it poor. *)
Theorem poor_condition (kp flux bz : option JsNumber) :
  overallCondition toFixed1 kp flux bz = poor
  <-> (exists k, kp = Some k /\ js_ge k (Num 5) = true)
      \/ (exists f, flux = Some f /\ js_lt f (Num e_4) = false).
Proof.
  unfold overallCondition.
  rewrite after_solar_wind_poor, after_xray_poor, after_kp_poor. tauto.
Qed.

Lemma after_kp_lowers kp : (rank (after_kp kp excellent) <= rank excellent)%nat.
Proof. destruct (after_kp kp excellent); simpl; lia. Qed.

Lemma after_xray_lowers flux c : (rank (after_xray toFixed1 flux c) <= rank c)%nat.
Proof.
  unfold after_xray. destruct flux as [f|]; [|lia].
  destruct (class_letter_of_flux f) as (-> & -> & ->).
  destruct (js_lt f (Num e_4)), (js_lt f (Num e_5)), (js_lt f (Num e_6));
    destruct c; simpl; lia.
Qed.

Lemma after_xray_monotone flux c c' :
  (rank c <= rank c')%nat ->
  (rank (after_xray toFixed1 flux c) <= rank (after_xray toFixed1 flux c'))%nat.
Proof.
  unfold after_xray. destruct flux as [f|]; [|tauto].
  destruct (class_letter_of_flux f) as (-> & -> & ->).
  destruct (js_lt f (Num e_4)), (js_lt f (Num e_5)), (js_lt f (Num e_6));
    destruct c, c'; simpl; lia.
Qed.

Lemma after_solar_wind_lowers bz c : (rank (after_solar_wind bz c) <= rank c)%nat.
Proof.
  unfold after_solar_wind. destruct bz as [b|]; [|lia].
  destruct (js_lt b (Num (-10))); destruct c; simpl; lia.
Qed.

Lemma after_solar_wind_monotone bz c c' :
  (rank c <= rank c')%nat ->
  (rank (after_solar_wind bz c) <= rank (after_solar_wind bz c'))%nat.
Proof.
  unfold after_solar_wind. destruct bz as [b|]; [|tauto].
  destruct (js_lt b (Num (-10))); destruct c, c'; simpl; lia.
Qed.

(** X24. Data can only lower the condition: leaving out the Kp, the flux or
    the solar wind (a part of the summary that is [null]) never gives a
    worse condition than with it, and with no data at all the condition is
    excellent. *)
Theorem missing_data_is_good_news (kp flux bz : option JsNumber) :
  (rank (overallCondition toFixed1 kp flux bz)
   <= rank (overallCondition toFixed1 None flux bz))%nat
  /\ (rank (overallCondition toFixed1 kp flux bz)
      <= rank (overallCondition toFixed1 kp None bz))%nat
  /\ (rank (overallCondition toFixed1 kp flux bz)
      <= rank (overallCondition toFixed1 kp flux None))%nat
  /\ overallCondition toFixed1 None None None = excellent.
Proof.
  unfold overallCondition. repeat split.
  - apply after_solar_wind_monotone, after_xray_monotone, after_kp_lowers.
  - apply after_solar_wind_monotone. apply after_xray_lowers.
  - apply after_solar_wind_lowers.
Qed.

(** X25. For a Kp that is a number, the condition from the Kp alone is poor
    exactly when [interpretKp] reports a storm (G1 to G5); for a Kp that is
    [NaN] the two part: [interpretKp] reports the Extreme Storm (G5) and the
    condition stays excellent. *)
Theorem kp_condition_and_level (q : number) :
  (overallCondition toFixed1 (Some (Num q)) None None = poor
   <-> (3 <= index_of (kp_level (interpretKp (Num q))) kp_levels)%nat)
  /\ overallCondition toFixed1 (Some NaN) None None = excellent
  /\ kp_level (interpretKp NaN) = "Extreme Storm (G5)"%string.
Proof.
  split; [|split; reflexivity].
  unfold overallCondition, after_solar_wind, after_xray, after_kp, js_ge, js_le.
  unfold interpretKp, js_lt.
  repeat match goal with
         | |- context [Qle_bool ?a ?b] =>
             let H := fresh "H" in
             destruct (Qle_bool a b) eqn:H;
             [apply Qle_bool_iff in H
             |assert (~ a <= b) by (rewrite <- Qle_bool_iff; congruence); clear H]
         end;
  split_thresholds; simpl; split; intros Hx; try reflexivity; try discriminate;
    try lia; exfalso; lra.
Qed.

(** X26. The report never calls a band it recommends degraded: the sentence
    for the target band is 'significantly degraded' exactly when the
    condition is poor and the band, in lower case, is one of 10m, 12m, 15m
    and 17m, none of which is recommended then. *)
Theorem recommended_band_not_degraded (targetBand : string) (c : Condition) :
  (band_remark targetBand c = significantly_degraded
   <-> c = poor
       /\ includes ["10m"; "12m"; "15m"; "17m"]%string (toLowerCase targetBand) = true)
  /\ (includes (recommendedBands c) (toLowerCase targetBand) = true ->
      band_remark targetBand c <> significantly_degraded).
Proof.
  assert (Hiff : band_remark targetBand c = significantly_degraded
                 <-> c = poor
                     /\ includes ["10m"; "12m"; "15m"; "17m"]%string
                                 (toLowerCase targetBand) = true).
  { unfold band_remark.
    destruct (includes ["10m"; "12m"; "15m"; "17m"]%string (toLowerCase targetBand)).
    - destruct c; simpl; split; intros H; try discriminate; try tauto;
        destruct H; discriminate.
    - destruct (includes ["20m"; "30m"; "40m"]%string (toLowerCase targetBand));
        split; intros H; try discriminate; destruct H; discriminate. }
  split; [exact Hiff|].
  intros Hrec Hdeg. apply Hiff in Hdeg. destruct Hdeg as [-> Hhigh].
  unfold includes in *. simpl in Hrec.
  repeat (apply orb_true_iff in Hrec; destruct Hrec as [Hrec|Hrec]);
    try discriminate; apply String.eqb_eq in Hrec; rewrite Hrec in Hhigh;
    discriminate.
Qed.

End Assessment.

(** * Properties of [parseQueryString] *)

Section QueryStrings.
Import QueryData QueryString.
Variable parseInt10 : string -> JsNumber.
Variable parseFloat : string -> JsNumber.

Lemma split_without (sep : ascii) (s : string) :
  occurs sep s = false -> split sep s = [s].
Proof.
  induction s as [|a rest IH]; simpl; [reflexivity|].
  intros H. apply orb_false_iff in H. destruct H as [Ha Hrest].
  rewrite Ha. now rewrite (IH Hrest).
Qed.

Lemma split_nonempty (sep : ascii) (s : string) : split sep s <> [].
Proof.
  destruct s as [|a rest]; simpl; [discriminate|].
  destruct (Ascii.eqb a sep); [discriminate|].
  destruct (split sep rest); discriminate.
Qed.

(** A character of a piece of [s.split(sep)] is a character of [s]. *)
Lemma split_occurs (sep c : ascii) (s piece : string) :
  In piece (split sep s) -> occurs c piece = true -> occurs c s = true.
Proof.
  revert piece. induction s as [|a rest IH]; simpl; intros piece Hin Hc.
  - destruct Hin as [<-|[]]. discriminate.
  - destruct (Ascii.eqb a sep).
    + destruct Hin as [<-|Hin]; [discriminate|].
      rewrite (IH piece Hin Hc). apply orb_true_r.
    + destruct (split sep rest) as [|p ps] eqn:Hsplit.
      * now destruct (split_nonempty sep rest).
      * destruct Hin as [<-|Hin].
        -- simpl in Hc. apply orb_true_iff in Hc. destruct Hc as [Hc|Hc].
           ++ now rewrite Hc.
           ++ rewrite (IH p (or_introl eq_refl) Hc). apply orb_true_r.
        -- rewrite (IH piece (or_intror Hin) Hc). apply orb_true_r.
Qed.

(** X27. A query string without an [=] sets no option: the result is [{}]
    for the empty string, for a string of [&] and for words with no value. *)
Theorem parse_without_equals (queryString : string) :
  occurs "=" queryString = false ->
  parseQueryString parseInt10 parseFloat queryString = no_options.
Proof.
  intros Hno. unfold parseQueryString.
  assert (Hparts : forall part, In part (split "&" queryString) ->
                                occurs "=" part = false).
  { intros part Hin. destruct (occurs "=" part) eqn:E; [|reflexivity].
    now rewrite (split_occurs "&" "=" queryString part Hin E) in Hno. }
  assert (Hfold : fold_left (parse_part parseInt10 parseFloat)
                     (List.filter (fun part => negb (part =? "")%string)
                                  (split "&" queryString))
                     (no_options, true)
                   = (no_options, true)).
  { induction (split "&" queryString) as [|part parts IH]; [reflexivity|].
    cbn [List.filter]. destruct (negb (part =? "")%string); cbn [fold_left].
    - assert (Hpart : parse_part parseInt10 parseFloat (no_options, true) part
                      = (no_options, true)).
      { unfold parse_part. rewrite (split_without "=" part); [reflexivity|].
        apply Hparts. now left. }
      rewrite Hpart. apply IH. intros p Hp. apply Hparts. now right.
    - apply IH. intros p Hp. apply Hparts. now right. }
  now rewrite Hfold.
Qed.

(** What one part of the query string does to the filter: nothing, or one
    assignment of a value of [parseValue] under a key that is not empty and
    is no name of an option. *)
Lemma parse_part_filter (options : QueryOptions) (inherits : bool) (part : string) :
  (filter (fst (parse_part parseInt10 parseFloat (options, inherits) part))
   = filter options
   /\ snd (parse_part parseInt10 parseFloat (options, inherits) part) = inherits)
  \/ exists key value rest,
       map trim (split "=" part) = key :: value :: rest
       /\ key <> EmptyString
       /\ existsb (String.eqb (Tools.toLowerCase key)) known_names = false
       /\ (filter (fst (parse_part parseInt10 parseFloat (options, inherits) part)),
           snd (parse_part parseInt10 parseFloat (options, inherits) part))
          = (Some (fst (assign key (parseValue parseFloat value)
                          match filter options with
                          | Some entries => (entries, inherits)
                          | None => empty_object
                          end)),
             snd (assign key (parseValue parseFloat value)
                    match filter options with
                    | Some entries => (entries, inherits)
                    | None => empty_object
                    end)).
Proof.
  unfold parse_part.
  destruct (map trim (split "=" part)) as [|key [|value rest]];
    [now left..|].
  destruct (key =? "")%string eqn:Hkey; [now left|].
  destruct (value =? "")%string; [now left|]. simpl.
  set (name := Tools.toLowerCase key).
  destruct (name =? "start")%string eqn:E1; [now left|].
  destruct (name =? "starttime")%string eqn:E2; [now left|].
  destruct (name =? "from")%string eqn:E3; [now left|].
  destruct (name =? "end")%string eqn:E4; [now left|].
  destruct (name =? "endtime")%string eqn:E5; [now left|].
  destruct (name =? "to")%string eqn:E6; [now left|].
  destruct (name =? "limit")%string eqn:E7; [now left|].
  destruct (name =? "count")%string eqn:E8; [now left|].
  destruct (name =? "sort")%string eqn:E9; [now left|].
  destruct (name =? "sortby")%string eqn:E10; [now left|].
  destruct (name =? "order")%string eqn:E11; [now left|].
  destruct (name =? "sortorder")%string eqn:E12; [now left|].
  simpl. right. exists key, value, rest.
  split; [reflexivity|]. split; [now apply String.eqb_neq|].
  split; [|reflexivity].
  fold name. simpl.
  now rewrite E1, E2, E3, E4, E5, E6, E7, E8, E9, E10, E11, E12.
Qed.

Lemma parseValue_plain (value : string) :
  plain_value (parseValue parseFloat value) = true.
Proof.
  unfold parseValue.
  destruct (_ =? "true")%string; [reflexivity|].
  destruct (_ =? "false")%string; [reflexivity|].
  destruct (_ =? "null")%string; [reflexivity|].
  destruct (isNaN (parseFloat value)) eqn:Hnan; simpl; [reflexivity|].
  destruct (matches_number value); simpl; [now rewrite Hnan|reflexivity].
Qed.

(** [parseValue] returns [null] for the word [null] alone, in any case of
    its letters. *)
Lemma parseValue_null (value : string) :
  parseValue parseFloat value = VNull -> Tools.toLowerCase value = "null"%string.
Proof.
  unfold parseValue.
  destruct (_ =? "true")%string; [discriminate|].
  destruct (_ =? "false")%string; [discriminate|].
  destruct (Tools.toLowerCase value =? "null")%string eqn:E;
    [intros _; now apply String.eqb_eq|].
  destruct (negb (isNaN (parseFloat value)) && matches_number value); discriminate.
Qed.

Lemma insert_index_keys n key v (entries : list (string * JsValue)) k :
  In k (map fst (insert_index n key v entries))
  <-> k = key \/ In k (map fst entries).
Proof.
  induction entries as [|[k' v'] rest IH]; simpl.
  - split; intros [H|H]; auto.
  - destruct (array_index k') as [n'|]; [destruct (n' <? n)%N|]; simpl;
      rewrite ?IH; intuition auto.
Qed.

Lemma insert_index_NoDup n key v (entries : list (string * JsValue)) :
  ~ In key (map fst entries) -> NoDup (map fst entries) ->
  NoDup (map fst (insert_index n key v entries)).
Proof.
  induction entries as [|[k' v'] rest IH]; simpl; intros Hnew Hnd.
  - constructor; [intros []|constructor].
  - destruct (array_index k') as [n'|]; [destruct (n' <? n)%N|]; simpl;
      try (constructor; assumption).
    inversion Hnd as [|? ? Hk' Hrest]; subst. constructor.
    + rewrite insert_index_keys. intros [->|Hin]; [apply Hnew; now left|auto].
    + apply IH; [intros Hin; apply Hnew; now right|assumption].
Qed.

Lemma insert_index_Forall (P : string * JsValue -> Prop) n key v entries :
  P (key, v) -> Forall P entries -> Forall P (insert_index n key v entries).
Proof.
  intros Hp. induction entries as [|[k' v'] rest IH]; simpl; intros Hall.
  - now constructor.
  - inversion Hall; subst.
    destruct (array_index k') as [n'|]; [destruct (n' <? n)%N|];
      repeat constructor; auto.
Qed.

Lemma add_property_keys key v (entries : list (string * JsValue)) k :
  In k (map fst (add_property key v entries))
  <-> k = key \/ In k (map fst entries).
Proof.
  unfold add_property. destruct (array_index key) as [n|].
  - apply insert_index_keys.
  - rewrite map_app, in_app_iff. simpl. intuition auto.
Qed.

Lemma add_property_NoDup key v (entries : list (string * JsValue)) :
  ~ In key (map fst entries) -> NoDup (map fst entries) ->
  NoDup (map fst (add_property key v entries)).
Proof.
  intros Hnew Hnd. unfold add_property. destruct (array_index key) as [n|].
  - now apply insert_index_NoDup.
  - rewrite map_app. simpl.
    apply NoDup_app; [assumption|constructor; [intros []|constructor]|].
    intros k Hk [<-|[]]. now apply Hnew.
Qed.

Lemma add_property_Forall (P : string * JsValue -> Prop) key v entries :
  P (key, v) -> Forall P entries -> Forall P (add_property key v entries).
Proof.
  intros Hp Hall. unfold add_property. destruct (array_index key) as [n|].
  - now apply insert_index_Forall.
  - apply Forall_app. split; [assumption|now constructor].
Qed.

Lemma map_set_Forall (P : string * JsValue -> Prop) key v entries :
  P (key, v) -> Forall P entries -> Forall P (map_set key v entries).
Proof.
  intros Hp. induction entries as [|[k' v'] rest IH]; simpl; intros Hall.
  - now constructor.
  - inversion Hall; subst. destruct (k' =? key)%string; constructor; auto.
Qed.

Lemma map_set_keys_present key v (entries : list (string * JsValue)) :
  map_has key entries = true ->
  map fst (map_set key v entries) = map fst entries.
Proof.
  unfold map_has. induction entries as [|[k' v'] rest IH]; simpl; [discriminate|].
  destruct (k' =? key)%string eqn:E; simpl.
  - intros _. apply String.eqb_eq in E. now subst.
  - intros H. now rewrite (IH H).
Qed.

Lemma map_has_In key (entries : list (string * JsValue)) :
  map_has key entries = true <-> In key (map fst entries).
Proof.
  unfold map_has. induction entries as [|[k' v'] rest IH]; simpl.
  - split; [discriminate|intros []].
  - destruct (k' =? key)%string eqn:E.
    + apply String.eqb_eq in E. subst. split; auto.
    + apply String.eqb_neq in E. rewrite IH. split; [auto|].
      intros [H|H]; [contradiction|assumption].
Qed.

(** One assignment to the filter object keeps what the filter is made of. *)
Lemma assign_filter_pairs key v entries inherits :
  filter_pair (key, v) ->
  Forall filter_pair entries -> NoDup (map fst entries) ->
  (inherits = true -> ~ In "__proto__"%string (map fst entries)) ->
  Forall filter_pair (fst (assign key v (entries, inherits)))
  /\ NoDup (map fst (fst (assign key v (entries, inherits))))
  /\ (snd (assign key v (entries, inherits)) = true ->
      inherits = true
      /\ ~ In "__proto__"%string (map fst (fst (assign key v (entries, inherits)))))
  /\ (snd (assign key v (entries, inherits)) = false ->
      inherits = false \/ (key = "__proto__"%string /\ v = VNull)).
Proof.
  intros Hpair Hall Hnd Hproto. unfold assign.
  destruct (map_has key entries) eqn:Hhas; simpl.
  - repeat split.
    + now apply map_set_Forall.
    + now rewrite map_set_keys_present.
    + assumption.
    + rewrite map_set_keys_present by assumption. now apply Hproto.
    + now left.
  - assert (Hnew : ~ In key (map fst entries)).
    { rewrite <- map_has_In. now rewrite Hhas. }
    destruct (key =? "__proto__")%string eqn:Hkey; simpl.
    + apply String.eqb_eq in Hkey. subst key. destruct inherits; simpl.
      * destruct v; simpl; repeat split; auto; try discriminate.
      * repeat split; try discriminate.
        -- now apply add_property_Forall.
        -- now apply add_property_NoDup.
        -- now left.
    + apply String.eqb_neq in Hkey. repeat split.
      * now apply add_property_Forall.
      * now apply add_property_NoDup.
      * assumption.
      * rewrite add_property_keys. intros [Heq|Hin]; [now apply Hkey|].
        now apply Hproto.
      * now left.
Qed.

(** X29. The filter [parseQueryString] builds holds each key once. No key
    is empty or is one of the names of the options in any case of its
    letters, and the values are booleans, [null], strings and numbers that
    are not [NaN]. The key [__proto__] is among them only when a part of
    the query string has set [__proto__] to [null]. *)
Theorem parsed_filter_pairs (queryString : string)
    (entries : list (string * JsValue)) :
  filter (parseQueryString parseInt10 parseFloat queryString) = Some entries ->
  NoDup (map fst entries)
  /\ Forall filter_pair entries
  /\ (In "__proto__"%string (map fst entries) ->
      exists part, In part (split "&" queryString) /\ sets_prototype_null part).
Proof.
  unfold parseQueryString.
  set (all := List.filter (fun part => negb (part =? "")%string)
                          (split "&" queryString)).
  assert (Hall : forall part, In part all -> In part (split "&" queryString)).
  { intros part Hin. unfold all in Hin. now apply filter_In in Hin. }
  assert (Hgen : forall parts state,
            (forall part, In part parts -> In part all) ->
            (forall es, filter (fst state) = Some es ->
               NoDup (map fst es) /\ Forall filter_pair es
               /\ (snd state = true -> ~ In "__proto__"%string (map fst es))
               /\ (snd state = false ->
                   exists part, In part all /\ sets_prototype_null part)) ->
            forall es,
              filter (fst (fold_left (parse_part parseInt10 parseFloat) parts state))
              = Some es ->
              NoDup (map fst es) /\ Forall filter_pair es
              /\ (In "__proto__"%string (map fst es) ->
                  exists part, In part all /\ sets_prototype_null part)).
  { induction parts as [|part parts IH]; intros [options inherits] Hin Hinv;
      cbn [fold_left].
    - intros es Hes. destruct (Hinv es Hes) as (Hnd & Hpairs & Hyes & Hno).
      repeat split; try assumption. intros Hproto.
      simpl in Hyes, Hno. destruct inherits; [now destruct (Hyes eq_refl)|].
      now apply Hno.
    - apply IH; [intros p Hp; apply Hin; now right|].
      pose proof (parse_part_filter options inherits part) as Hpart.
      set (state := parse_part parseInt10 parseFloat (options, inherits) part) in *.
      intros es Hes.
      destruct Hpart
        as [[Hsame Hflag]|(key & value & rest & Hpieces & Hkey & Hname & Hset)].
      + rewrite Hflag. apply Hinv. simpl. congruence.
      + injection Hset as Hfilter Hflag. rewrite Hflag.
        rewrite Hfilter in Hes. injection Hes as <-.
        assert (Hpair : filter_pair (key, parseValue parseFloat value)).
        { repeat split; simpl; try assumption. apply parseValue_plain. }
        assert (Hstep : forall old flag,
                  NoDup (map fst old) -> Forall filter_pair old ->
                  (flag = true -> ~ In "__proto__"%string (map fst old)) ->
                  (flag = false ->
                   exists part, In part all /\ sets_prototype_null part) ->
                  NoDup (map fst (fst (assign key (parseValue parseFloat value)
                                         (old, flag))))
                  /\ Forall filter_pair
                       (fst (assign key (parseValue parseFloat value) (old, flag)))
                  /\ (snd (assign key (parseValue parseFloat value) (old, flag))
                      = true ->
                      ~ In "__proto__"%string
                          (map fst (fst (assign key (parseValue parseFloat value)
                                           (old, flag)))))
                  /\ (snd (assign key (parseValue parseFloat value) (old, flag))
                      = false ->
                      exists part, In part all /\ sets_prototype_null part)).
        { intros old flag Hnd Hpairs Hyes Hno.
          destruct (assign_filter_pairs key (parseValue parseFloat value) old flag
                      Hpair Hpairs Hnd Hyes) as (Hpairs' & Hnd' & Hyes' & Hno').
          split; [exact Hnd'|]. split; [exact Hpairs'|]. split.
          - intros Htrue. now apply Hyes'.
          - intros Hfalse. destruct (Hno' Hfalse) as [Hflagf|[Hk Hv]].
            + now apply Hno.
            + exists part. split; [apply Hin; now left|].
              exists value, rest. split; [now rewrite Hpieces, Hk|].
              now apply parseValue_null. }
        destruct (filter options) as [e|] eqn:Hf.
        -- destruct (Hinv e Hf) as (Hnd & Hpairs & Hyes & Hno).
           now apply Hstep.
        -- apply (Hstep [] true); try constructor; [intros _ []|discriminate]. }
  intros Hes.
  destruct (Hgen all (no_options, true) (fun part H => H)
              (fun es H => ltac:(discriminate)) entries Hes)
    as (Hnd & Hpairs & Hproto).
  repeat split; try assumption.
  intros Hin. destruct (Hproto Hin) as (part & Hpart & Hsets).
  exists part. split; [now apply Hall|assumption].
Qed.

End QueryStrings.

Lemma parse_without_equals_witness :
  occurs "=" "limit&&sort"%string = false
  /\ QueryString.parseQueryString short_digits short_digits "limit&&sort"%string
     = QueryString.no_options.
Proof.
  split; [reflexivity|].
  apply (parse_without_equals short_digits short_digits "limit&&sort"%string).
  reflexivity.
Defined.

Lemma parsed_filter_pairs_witness :
  QueryData.filter
    (QueryString.parseQueryString short_digits short_digits
       "kp=5&observed=true&1=x&0=null"%string)
  = Some [("0"%string, VNull); ("1"%string, VString "x");
          ("kp"%string, VNumber (Num (inject_Z 5))); ("observed"%string, VBool true)]
  /\ NoDup ["0"; "1"; "kp"; "observed"]%string.
Proof.
  split; [reflexivity|].
  apply (parsed_filter_pairs short_digits short_digits
           "kp=5&observed=true&1=x&0=null"%string
           [("0"%string, VNull); ("1"%string, VString "x");
            ("kp"%string, VNumber (Num (inject_Z 5))); ("observed"%string, VBool true)]).
  reflexivity.
Defined.
